(** * Bezier curve fitting of the Qwt plotting library

    A shallow embedding of [qwt_bezier_curve_fitter.cpp] and the properties
    its specification states about it.

    Numbers.  The C++ [double] is modelled by the real numbers [R]: the
    properties below are the ones of exact arithmetic.  A division whose
    divisor is a run-time value fails with [DivByZero] when the divisor is
    zero; divisions by the literal [6.0] are plain.  The C++ [int] is
    modelled by [Z]: signed overflow is undefined in C++, and the indices the
    code computes stay between [-1] and the array size where the lookups
    succeed (see [qwtFitBezier_in_bounds]).

    Arrays.  [p[k]] on a [QPolygonF] is a checked lookup that fails with
    [OutOfBounds k] outside [0 .. size-1]. *)

From Stdlib Require Import Reals Lra Lia ZArith List Bool.
Import ListNotations.

Open Scope R_scope.

(** ** Failure of a run *)

Inductive error : Type :=
| OutOfBounds (k : Z)
| DivByZero
| OutOfFuel.

Definition result (A : Type) : Type := (error + A)%type.

Definition ret {A : Type} (a : A) : result A := inr a.

Definition fail {A : Type} (e : error) : result A := inl e.

Definition bind {A B : Type} (r : result A) (k : A -> result B) : result B :=
  match r with
  | inl e => inl e
  | inr a => k a
  end.

Notation "x <- c ;; k" := (bind c (fun x => k))
  (at level 61, c at next level, right associativity).

(** ** Comparisons and division on [double] *)

Definition Rlt_bool (x y : R) : bool := if Rlt_dec x y then true else false.

Definition Rgt_bool (x y : R) : bool := Rlt_bool y x.

Definition Req_bool (x y : R) : bool := if Req_dec_T x y then true else false.

Definition Rdiv_chk (a b : R) : result R :=
  if Req_dec_T b 0 then fail DivByZero else ret (a / b).

Infix "/?" := Rdiv_chk (at level 40, left associativity).

(** ** Data model *)

(** [QPointF]: a pair of coordinates. *)
Record QPointF : Type := mkPoint { px : R; py : R }.

(** [QPolygonF]: a sequence of points. *)
Definition QPolygonF : Type := list QPointF.

(** Modelled from the spec: the comparison [operator!=] of [QPointF] lives in
    the Qt headers; the spec reads [p0 != p1] as "the neighbor point does not
    coincide with the segment endpoint", that is, some coordinate differs. *)
Definition QPointF_neq (a b : QPointF) : bool :=
  negb (Req_bool (px a) (px b)) || negb (Req_bool (py a) (py b)).

(** [QwtInterval( minValue, maxValue )]: the constructor stores the two
    borders as given. *)
Record QwtInterval : Type := mkInterval { minValue : R; maxValue : R }.

(** [points.size()] as an [int]. *)
Definition size (p : QPolygonF) : Z := Z.of_nat (length p).

(** [p[k]]. *)
Definition at_ (p : QPolygonF) (k : Z) : result QPointF :=
  if (k <? 0)%Z then fail (OutOfBounds k)
  else match nth_error p (Z.to_nat k) with
       | Some q => ret q
       | None => fail (OutOfBounds k)
       end.

(** The point at index [k] with a default outside the array: what [p[k]]
    reads when [k] is in bounds (see [at_in]). *)
Definition pointAt (p : QPolygonF) (k : Z) : QPointF :=
  nth (Z.to_nat k) p (mkPoint 0 0).

(** ** The Bezier interval engine *)

Definition qwtLineLength (p_start p_end : QPointF) : R :=
  let dx := px p_start - px p_end in
  let dy := py p_start - py p_end in
  sqrt (dx * dx + dy * dy).

(** The scale factors [s1], [s2] of [qwtBezierInterval]: the [if] chain of
    the function body. *)
Definition qwtBezierScales (p0 p1 p2 p3 : QPointF) : result (R * R) :=
  let d02 := qwtLineLength p0 p2 in
  let d13 := qwtLineLength p1 p3 in
  let d12_2 := 0.5 * qwtLineLength p1 p2 in
  let b1 := Rlt_bool (d02 / 6) d12_2 in
  let b2 := Rlt_bool (d13 / 6) d12_2 in
  if b1 && b2 then
    ret (if QPointF_neq p0 p1 then 1 / 6 else 1 / 3,
         if QPointF_neq p2 p3 then 1 / 6 else 1 / 3)
  else if negb b1 && b2 then
    s1 <- d12_2 /? d02 ;;
    ret (s1, s1)
  else if b1 && negb b2 then
    s1 <- d12_2 /? d13 ;;
    ret (s1, s1)
  else
    s1 <- d12_2 /? d02 ;;
    s2 <- d12_2 /? d13 ;;
    ret (s1, s2).

Definition qwtBezierInterval (p0 p1 p2 p3 : QPointF) : result QwtInterval :=
  s <- qwtBezierScales p0 p1 p2 p3 ;;
  let y1 := py p1 + (py p2 - py p0) * fst s in
  let y2 := py p2 + (py p1 - py p3) * snd s in
  ret (mkInterval (3 * y1) (3 * y2)).

Definition qwtBezierValue (p1 p2 : QPointF) (interval : QwtInterval) (x : R)
  : result R :=
  s1 <- (x - px p1) /? (px p2 - px p1) ;;
  let s2 := 1 - s1 in
  let a1 := s1 * minValue interval in
  let a2 := s1 * s1 * maxValue interval in
  let a3 := s1 * s1 * s1 * py p2 in
  ret (((s2 * py p1 + a1) * s2 + a2) * s2 + a3).

(** The inner [while ( x > p[j + 1].x() ) j++] loop.  Every round reads
    [p[j + 1]], so at most [size p] rounds pass before the lookup fails;
    the fuel [S (length p)] is never the reason to stop (see
    [qwtSkip_fuel]). *)
Fixpoint qwtSkip (fuel : nat) (p : QPolygonF) (x : R) (j : Z) : result Z :=
  match fuel with
  | O => fail OutOfFuel
  | S fuel' =>
      q <- at_ p (j + 1) ;;
      if Rgt_bool x (px q) then qwtSkip fuel' p x (j + 1) else ret j
  end.

(** The variables the [for] loop of [qwtFitBezier] carries from one round to
    the next. *)
Record FitState : Type := mkFit {
  cursor : Z;
  intv : QwtInterval;
  fittedPoints : QPolygonF
}.

(** One round of the [for] loop, for the loop counter [i]. *)
Definition qwtFitStep (p : QPolygonF) (x1 delta : R) (i : Z) (st : FitState)
  : result FitState :=
  let psize := size p in
  let x := x1 + IZR i * delta in
  let j := cursor st in
  q <- at_ p (j + 1) ;;
  ji <- (if Rgt_bool x (px q) then
           j' <- qwtSkip (S (length p)) p x j ;;
           let j2 := Z.min (psize - 1) (j' + 2) in
           a <- at_ p (j' - 1) ;;
           b <- at_ p j' ;;
           c <- at_ p (j' + 1) ;;
           d <- at_ p j2 ;;
           iv <- qwtBezierInterval a b c d ;;
           ret (j', iv)
         else ret (j, intv st)) ;;
  pj <- at_ p (fst ji) ;;
  pj1 <- at_ p (fst ji + 1) ;;
  y <- qwtBezierValue pj pj1 (snd ji) x ;;
  ret (mkFit (fst ji) (snd ji) (fittedPoints st ++ [mkPoint x y])).

(** [rounds] rounds of the [for] loop, starting with the counter at [i]. *)
Fixpoint qwtFitLoop (rounds : nat) (p : QPolygonF) (x1 delta : R) (i : Z)
  (st : FitState) : result FitState :=
  match rounds with
  | O => ret st
  | S rounds' =>
      st' <- qwtFitStep p x1 delta i st ;;
      qwtFitLoop rounds' p x1 delta (i + 1) st'
  end.

Definition qwtFitBezier (points : QPolygonF) (numPoints : Z) : result QPolygonF :=
  let psize := size points in
  if (psize <=? 2)%Z then ret points
  else
    first <- at_ points 0 ;;
    last <- at_ points (psize - 1) ;;
    let x1 := px first in
    let x2 := px last in
    delta <- (x2 - x1) /? IZR (numPoints - 1) ;;
    p0 <- at_ points 0 ;;
    p1 <- at_ points 1 ;;
    p2 <- at_ points 2 ;;
    iv <- qwtBezierInterval p0 p0 p1 p2 ;;
    st <- qwtFitLoop (Z.to_nat numPoints) points x1 delta 0
            (mkFit 0 iv []) ;;
    ret (fittedPoints st).

(** ** The spline collaborator

    [QwtBezierSpline] is declared in [qwt_bezier_spline.h]; the fitter uses
    it through the four operations below and its default constructor, which
    are taken as parameters. *)

Class BezierSpline (Sp : Type) : Type := {
  defaultSpline : Sp;
  setPoints : QPolygonF -> Sp -> Sp;
  isValid : Sp -> bool;
  value : Sp -> R -> R;
  reset : Sp -> Sp
}.

(** ** The object-owned fitter, [QwtBezierSplineCurveFitter] *)

Module Fitter.
Section WithSpline.
Context {Sp : Type} `{BezierSpline Sp}.

(** [PrivateData]: what [d_data] points to.  The methods below are [const]
    but write through [d_data]; the state is passed explicitly. *)
Record PrivateData : Type := mkData { spline : Sp; splineSize : Z }.

Definition newPrivateData : PrivateData := mkData defaultSpline 250.

Definition setSplineSize (n : Z) (d : PrivateData) : PrivateData :=
  mkData (spline d) (Z.max n 10).

Definition newFitter (n : Z) : PrivateData := setSplineSize n newPrivateData.

Definition setSpline (s : Sp) (d : PrivateData) : PrivateData :=
  mkData (reset s) (splineSize d).

(** The sampling loop of [fitSpline]: the points for the counters
    [i, i+1, ..], [rounds] of them. *)
Fixpoint sampleSpline (rounds : nat) (s : Sp) (x1 delta : R) (i : Z) : QPolygonF :=
  match rounds with
  | O => []
  | S rounds' =>
      let v := x1 + IZR i * delta in
      let sv := value s v in
      mkPoint v sv :: sampleSpline rounds' s x1 delta (i + 1)
  end.

Definition fitSpline (points : QPolygonF) (d : PrivateData)
  : result (QPolygonF * PrivateData) :=
  let d1 := mkData (setPoints points (spline d)) (splineSize d) in
  if negb (isValid (spline d1)) then ret (points, d1)
  else
    first <- at_ points 0 ;;
    last <- at_ points (size points - 1) ;;
    let x1 := px first in
    let x2 := px last in
    let dx := x2 - x1 in
    delta <- dx /? IZR (splineSize d1 - 1) ;;
    let fitted := sampleSpline (Z.to_nat (splineSize d1)) (spline d1) x1 delta 0 in
    let d2 := mkData (reset (spline d1)) (splineSize d1) in
    ret (fitted, d2).

Definition fitCurve (points : QPolygonF) (d : PrivateData)
  : result (QPolygonF * PrivateData) :=
  if (size points <=? 2)%Z then ret (points, d)
  else fitSpline points d.

End WithSpline.
Arguments PrivateData Sp : clear implicits.
End Fitter.

(** ** The stateless fitter, [QwtBezierSplineCurveFitter2] *)

Module Fitter2.

Record PrivateData : Type := mkData { splineSize : Z }.

Definition newPrivateData : PrivateData := mkData 250.

Definition setSplineSize (n : Z) (d : PrivateData) : PrivateData :=
  mkData (Z.max n 10).

Definition newFitter (n : Z) : PrivateData := setSplineSize n newPrivateData.

Definition fitCurve (points : QPolygonF) (d : PrivateData) : result QPolygonF :=
  if (size points <=? 2)%Z then ret points
  else qwtFitBezier points (splineSize d).

End Fitter2.

(** ** Preconditions and reference variants used by the statements *)

(** The x-coordinates of the sequence are strictly increasing. *)
Fixpoint increasingX (p : QPolygonF) : Prop :=
  match p with
  | a :: (b :: _) as rest => px a < px b /\ increasingX rest
  | _ => True
  end.

(** The scale selection as the specification words it: each condition holds
    when the chord-based estimate [d / 6] exceeds the central half-length. *)
Definition exceedsBezierScales (p0 p1 p2 p3 : QPointF) : result (R * R) :=
  let d02 := qwtLineLength p0 p2 in
  let d13 := qwtLineLength p1 p3 in
  let half := 0.5 * qwtLineLength p1 p2 in
  let c1 := Rgt_bool (d02 / 6) half in
  let c2 := Rgt_bool (d13 / 6) half in
  match c1, c2 with
  | true, true =>
      ret (if QPointF_neq p0 p1 then 1 / 6 else 1 / 3,
           if QPointF_neq p2 p3 then 1 / 6 else 1 / 3)
  | false, true => s <- half /? d02 ;; ret (s, s)
  | true, false => s <- half /? d13 ;; ret (s, s)
  | false, false => s1 <- half /? d02 ;; s2 <- half /? d13 ;; ret (s1, s2)
  end.

(** The Bezier interval of segment [j], computed from the points alone:
    [p0 = p[0]] for the first segment, the neighbours
    [(j-1, j, j+1, min(n-1, j+2))] otherwise. *)
Definition segmentInterval (p : QPolygonF) (j : Z) : result QwtInterval :=
  if (j =? 0)%Z then
    p0 <- at_ p 0 ;;
    p1 <- at_ p 1 ;;
    p2 <- at_ p 2 ;;
    qwtBezierInterval p0 p0 p1 p2
  else
    a <- at_ p (j - 1) ;;
    b <- at_ p j ;;
    c <- at_ p (j + 1) ;;
    d <- at_ p (Z.min (size p - 1) (j + 2)) ;;
    qwtBezierInterval a b c d.

(** The segment enclosing [x], searched from the first segment. *)
Definition enclosingSegment (p : QPolygonF) (x : R) : result Z :=
  qwtSkip (S (length p)) p x 0.

(** One output sample of the naive variant: nothing is carried over from
    the sample before. *)
Definition naiveSample (p : QPolygonF) (x1 delta : R) (i : Z) : result QPointF :=
  let x := x1 + IZR i * delta in
  j <- enclosingSegment p x ;;
  iv <- segmentInterval p j ;;
  pj <- at_ p j ;;
  pj1 <- at_ p (j + 1) ;;
  y <- qwtBezierValue pj pj1 iv x ;;
  ret (mkPoint x y).

Fixpoint naiveLoop (rounds : nat) (p : QPolygonF) (x1 delta : R) (i : Z)
  : result QPolygonF :=
  match rounds with
  | O => ret []
  | S rounds' =>
      pt <- naiveSample p x1 delta i ;;
      rest <- naiveLoop rounds' p x1 delta (i + 1) ;;
      ret (pt :: rest)
  end.

(** The naive variant of [qwtFitBezier]. *)
Definition qwtFitBezier_naive (points : QPolygonF) (numPoints : Z)
  : result QPolygonF :=
  let psize := size points in
  if (psize <=? 2)%Z then ret points
  else
    first <- at_ points 0 ;;
    last <- at_ points (psize - 1) ;;
    delta <- (px last - px first) /? IZR (numPoints - 1) ;;
    naiveLoop (Z.to_nat numPoints) points (px first) delta 0.

(** What holds of the loop variables of [qwtFitBezier] before the round that
    samples at [xi]: the cursor names a segment, the cached interval is the
    one of that segment, and [xi] lies beyond every point the cursor has
    passed. *)
Definition FitInv (p : QPolygonF) (xi : R) (st : FitState) : Prop :=
  (0 <= cursor st)%Z /\
  (cursor st + 1 < size p)%Z /\
  segmentInterval p (cursor st) = ret (intv st) /\
  forall k, (0 < k <= cursor st)%Z -> px (pointAt p k) < xi.

(** A spline that keeps the points it was given, is valid when its first two
    points advance in x, evaluates to the first ordinate and is emptied by
    [reset]. *)
#[export] Instance StoredSpline : BezierSpline QPolygonF := {
  defaultSpline := [];
  setPoints pts _ := pts;
  isValid s := match s with
               | a :: b :: _ => Rlt_bool (px a) (px b)
               | _ => false
               end;
  value s _ := match s with a :: _ => py a | [] => 0 end;
  reset _ := []
}.

(** Concrete inputs. *)
Definition line3 : QPolygonF := [mkPoint 0 0; mkPoint 1 1; mkPoint 2 2].

Definition line5 : QPolygonF :=
  [mkPoint 0 0; mkPoint 0.5 0.5; mkPoint 1 1; mkPoint 1.5 1.5; mkPoint 2 2].

Definition stacked3 : QPolygonF := [mkPoint 0 0; mkPoint 0 1; mkPoint 0 2].

Definition zigzag5 : QPolygonF :=
  [mkPoint 0 0; mkPoint 1 2; mkPoint 2 0; mkPoint 3 2; mkPoint 4 0].

(** The states of an object-owned fitter that its interface can produce:
    the constructor, the two setters, a write through the reference that the
    non-const [spline()] hands out, and a completed [fitCurve]. *)
Inductive FitterReachable {Sp : Type} `{BezierSpline Sp}
  : Fitter.PrivateData Sp -> Prop :=
| reach_new (n : Z) :
    FitterReachable (Fitter.newFitter n)
| reach_setSplineSize (n : Z) (d : Fitter.PrivateData Sp) :
    FitterReachable d -> FitterReachable (Fitter.setSplineSize n d)
| reach_setSpline (s : Sp) (d : Fitter.PrivateData Sp) :
    FitterReachable d -> FitterReachable (Fitter.setSpline s d)
| reach_spline (s : Sp) (d : Fitter.PrivateData Sp) :
    FitterReachable d -> FitterReachable (Fitter.mkData s (Fitter.splineSize d))
| reach_fitCurve (points out : QPolygonF) (d d' : Fitter.PrivateData Sp) :
    FitterReachable d -> Fitter.fitCurve points d = ret (out, d') ->
    FitterReachable d'.

(** The x-coordinates of the sequence never decrease; equal neighbours are
    allowed. *)
Fixpoint nondecreasingX (p : QPolygonF) : Prop :=
  match p with
  | a :: (b :: _) as rest => px a <= px b /\ nondecreasingX rest
  | _ => True
  end.

(** The point of the line [y = y0 + slope * (x - x0)] at the distance [u]
    along the x-axis from [x0]. *)
Definition linePoint (x0 y0 slope u : R) : QPointF :=
  mkPoint (x0 + u) (y0 + slope * u).

(** The points of the polygon lie on one line, at the constant spacing [h]
    in x. *)
Definition uniformLine (p : QPolygonF) (x0 y0 h slope : R) : Prop :=
  forall k, (0 <= k < size p)%Z ->
    pointAt p k = linePoint x0 y0 slope (IZR k * h).

(** A point moved by [(dx, dy)]. *)
Definition shiftPoint (dx dy : R) (q : QPointF) : QPointF :=
  mkPoint (px q + dx) (py q + dy).

(** * Properties *)

(** ** The failure monad, comparisons and lookups *)

Lemma bind_ret {A B : Type} (a : A) (k : A -> result B) :
  bind (ret a) k = k a.
Proof. reflexivity. Qed.

Lemma Rlt_bool_true (x y : R) : x < y -> Rlt_bool x y = true.
Proof. intros L; unfold Rlt_bool; destruct (Rlt_dec x y); [reflexivity | contradiction]. Qed.

Lemma Rlt_bool_false (x y : R) : ~ x < y -> Rlt_bool x y = false.
Proof. intros L; unfold Rlt_bool; destruct (Rlt_dec x y); [contradiction | reflexivity]. Qed.

Lemma Rlt_bool_spec (x y : R) : Rlt_bool x y = true <-> x < y.
Proof.
  unfold Rlt_bool; destruct (Rlt_dec x y); split; intros; try assumption;
    try reflexivity; try discriminate; contradiction.
Qed.

Lemma Req_bool_refl (x : R) : Req_bool x x = true.
Proof. unfold Req_bool; destruct (Req_dec_T x x); [reflexivity | congruence]. Qed.

Lemma Req_bool_neq (x y : R) : x <> y -> Req_bool x y = false.
Proof. intros N; unfold Req_bool; destruct (Req_dec_T x y); [contradiction | reflexivity]. Qed.

Lemma Rdiv_chk_ok (a b : R) : b <> 0 -> a /? b = ret (a / b).
Proof. intros N; unfold Rdiv_chk; destruct (Req_dec_T b 0); [contradiction | reflexivity]. Qed.

Lemma QPointF_neq_same (a : QPointF) : QPointF_neq a a = false.
Proof. unfold QPointF_neq; rewrite !Req_bool_refl; reflexivity. Qed.

Lemma QPointF_neq_x (a b : QPointF) : px a <> px b -> QPointF_neq a b = true.
Proof. intros N; unfold QPointF_neq; rewrite (Req_bool_neq _ _ N); reflexivity. Qed.

Lemma QPointF_neq_spec (a b : QPointF) : QPointF_neq a b = true <-> a <> b.
Proof.
  destruct a as [ax ay], b as [bx by_]; unfold QPointF_neq, Req_bool; simpl.
  destruct (Req_dec_T ax bx) as [Ex | Nx], (Req_dec_T ay by_) as [Ey | Ny]; simpl;
    split; intros K; try reflexivity; try discriminate; try congruence.
Qed.

Lemma at_in (p : QPolygonF) (k : Z) :
  (0 <= k < size p)%Z -> at_ p k = ret (pointAt p k).
Proof.
  unfold at_, size, pointAt; intros [L U].
  destruct (Z.ltb_spec k 0) as [N | _]; [lia |].
  destruct (nth_error p (Z.to_nat k)) as [q |] eqn:E.
  - rewrite (nth_error_nth p (Z.to_nat k) _ E); reflexivity.
  - apply nth_error_None in E; lia.
Qed.

Lemma at_out (p : QPolygonF) (k : Z) :
  ~ (0 <= k < size p)%Z -> at_ p k = fail (OutOfBounds k).
Proof.
  unfold at_, size; intros N.
  destruct (Z.ltb_spec k 0) as [_ | L]; [reflexivity |].
  destruct (nth_error p (Z.to_nat k)) as [q |] eqn:E; [| reflexivity].
  assert (Z.to_nat k < length p)%nat by (apply nth_error_Some; congruence); lia.
Qed.

Lemma at_ret_inv (p : QPolygonF) (k : Z) (q : QPointF) :
  at_ p k = ret q -> (0 <= k < size p)%Z /\ q = pointAt p k.
Proof.
  intros E.
  destruct (Z_lt_dec k 0) as [N | N].
  - rewrite at_out in E by lia; discriminate E.
  - destruct (Z_lt_dec k (size p)) as [U | U].
    + rewrite at_in in E by lia; split; [lia | injection E; auto].
    + rewrite at_out in E by lia; discriminate E.
Qed.

Lemma pointAt_cons (a : QPointF) (p : QPolygonF) (k : Z) :
  (0 < k)%Z -> pointAt (a :: p) k = pointAt p (k - 1).
Proof.
  intros L; unfold pointAt.
  replace (Z.to_nat k) with (S (Z.to_nat (k - 1))) by lia; reflexivity.
Qed.

Lemma size_cons (a : QPointF) (p : QPolygonF) : size (a :: p) = (size p + 1)%Z.
Proof. unfold size; simpl length; lia. Qed.

(** Strictly increasing abscissae, read through the indices. *)
Lemma increasingX_step (p : QPolygonF) :
  increasingX p ->
  forall k, (0 <= k)%Z -> (k + 1 < size p)%Z ->
  px (pointAt p k) < px (pointAt p (k + 1)).
Proof.
  induction p as [| a p IH]; intros Inc k L U.
  - unfold size in U; simpl in U; lia.
  - destruct p as [| b p].
    + unfold size in U; simpl in U; lia.
    + destruct Inc as [Hab Inc].
      destruct (Z.eq_dec k 0) as [-> | N].
      * exact Hab.
      * rewrite (pointAt_cons a (b :: p) k) by lia.
        rewrite (pointAt_cons a (b :: p) (k + 1)) by lia.
        replace (k + 1 - 1)%Z with (k - 1 + 1)%Z by lia.
        apply IH; [exact Inc | lia |].
        rewrite size_cons in U; lia.
Qed.

Lemma increasingX_lt (p : QPolygonF) :
  increasingX p ->
  forall i k, (0 <= i)%Z -> (i < k)%Z -> (k < size p)%Z ->
  px (pointAt p i) < px (pointAt p k).
Proof.
  intros Inc i k Li Lik Uk.
  replace k with (i + 1 + Z.of_nat (Z.to_nat (k - i - 1)))%Z in * by lia.
  induction (Z.to_nat (k - i - 1)) as [| d IH].
  - replace (i + 1 + Z.of_nat 0)%Z with (i + 1)%Z in * by lia.
    apply increasingX_step; [exact Inc | lia | lia].
  - apply Rlt_trans with (px (pointAt p (i + 1 + Z.of_nat d))).
    + apply IH; lia.
    + replace (i + 1 + Z.of_nat (S d))%Z with (i + 1 + Z.of_nat d + 1)%Z by lia.
      apply increasingX_step; [exact Inc | lia | lia].
Qed.

(** ** Chord lengths *)

Lemma qwtLineLength_nonneg (a b : QPointF) : 0 <= qwtLineLength a b.
Proof. unfold qwtLineLength; apply sqrt_pos. Qed.

Lemma square_nonneg (t : R) : 0 <= t * t.
Proof. exact (Rle_0_sqr t). Qed.

Lemma square_pos (t : R) : t <> 0 -> 0 < t * t.
Proof. exact (Rsqr_pos_lt t). Qed.

Lemma qwtLineLength_pos_x (a b : QPointF) :
  px a <> px b -> 0 < qwtLineLength a b.
Proof.
  intros N; unfold qwtLineLength; apply sqrt_lt_R0.
  assert (0 < (px a - px b) * (px a - px b)) by (apply square_pos; lra).
  pose proof (square_nonneg (py a - py b)).
  lra.
Qed.

Lemma qwtLineLength_pos (a b : QPointF) : a <> b -> 0 < qwtLineLength a b.
Proof.
  intros N; unfold qwtLineLength; apply sqrt_lt_R0.
  destruct a as [ax ay], b as [bx by_]; simpl.
  pose proof (square_nonneg (ax - bx)).
  pose proof (square_nonneg (ay - by_)).
  destruct (Req_dec_T ax bx) as [Ex | Nx].
  - assert (ay <> by_) by congruence.
    assert (0 < (ay - by_) * (ay - by_)) by (apply square_pos; lra).
    lra.
  - assert (0 < (ax - bx) * (ax - bx)) by (apply square_pos; lra).
    lra.
Qed.

Lemma qwtLineLength_level (a b : QPointF) :
  py a = py b -> qwtLineLength a b = Rabs (px a - px b).
Proof.
  intros E; unfold qwtLineLength; rewrite E.
  replace ((px a - px b) * (px a - px b) + (py b - py b) * (py b - py b))
    with (Rsqr (px a - px b)) by (unfold Rsqr; ring).
  apply sqrt_Rsqr_abs.
Qed.

Lemma qwtLineLength_level_lt (a b : QPointF) :
  py a = py b -> px a <= px b -> qwtLineLength a b = px b - px a.
Proof.
  intros E L; rewrite (qwtLineLength_level a b E).
  rewrite <- Rabs_Ropp, Rabs_pos_eq; lra.
Qed.

(** ** The scale selection of [qwtBezierInterval] *)

Section Scales.
Variables p0 p1 p2 p3 : QPointF.

Let d02 : R := qwtLineLength p0 p2.
Let d13 : R := qwtLineLength p1 p3.
Let half : R := 0.5 * qwtLineLength p1 p2.

Lemma scales_both :
  d02 / 6 < half -> d13 / 6 < half ->
  qwtBezierScales p0 p1 p2 p3 =
    ret (if QPointF_neq p0 p1 then 1 / 6 else 1 / 3,
         if QPointF_neq p2 p3 then 1 / 6 else 1 / 3).
Proof.
  intros B1 B2; unfold qwtBezierScales.
  fold d02 d13 half.
  rewrite (Rlt_bool_true _ _ B1), (Rlt_bool_true _ _ B2); reflexivity.
Qed.

Lemma scales_left_false :
  ~ d02 / 6 < half -> d13 / 6 < half ->
  qwtBezierScales p0 p1 p2 p3 = ret (half / d02, half / d02).
Proof.
  intros B1 B2; unfold qwtBezierScales.
  fold d02 d13 half.
  rewrite (Rlt_bool_false _ _ B1), (Rlt_bool_true _ _ B2); simpl.
  assert (0 <= d13) by apply qwtLineLength_nonneg.
  rewrite Rdiv_chk_ok by lra; reflexivity.
Qed.

Lemma scales_right_false :
  d02 / 6 < half -> ~ d13 / 6 < half ->
  qwtBezierScales p0 p1 p2 p3 = ret (half / d13, half / d13).
Proof.
  intros B1 B2; unfold qwtBezierScales.
  fold d02 d13 half.
  rewrite (Rlt_bool_true _ _ B1), (Rlt_bool_false _ _ B2); simpl.
  assert (0 <= d02) by apply qwtLineLength_nonneg.
  rewrite Rdiv_chk_ok by lra; reflexivity.
Qed.

Lemma scales_both_false :
  ~ d02 / 6 < half -> ~ d13 / 6 < half ->
  qwtBezierScales p0 p1 p2 p3 =
    (s1 <- half /? d02 ;; s2 <- half /? d13 ;; ret (s1, s2)).
Proof.
  intros B1 B2; unfold qwtBezierScales.
  fold d02 d13 half.
  rewrite (Rlt_bool_false _ _ B1), (Rlt_bool_false _ _ B2); reflexivity.
Qed.

(** With a central segment of positive length no branch divides by zero. *)
Lemma scales_defined :
  0 < qwtLineLength p1 p2 ->
  exists s, qwtBezierScales p0 p1 p2 p3 = ret s.
Proof.
  intros P.
  assert (0 < half) by (unfold half; lra).
  destruct (Rlt_dec (d02 / 6) half) as [B1 | B1],
           (Rlt_dec (d13 / 6) half) as [B2 | B2].
  - rewrite (scales_both B1 B2); eexists; reflexivity.
  - rewrite (scales_right_false B1 B2); eexists; reflexivity.
  - rewrite (scales_left_false B1 B2); eexists; reflexivity.
  - rewrite (scales_both_false B1 B2).
    rewrite !Rdiv_chk_ok by lra; eexists; reflexivity.
Qed.

Lemma interval_defined :
  0 < qwtLineLength p1 p2 ->
  exists iv, qwtBezierInterval p0 p1 p2 p3 = ret iv.
Proof.
  intros P; destruct (scales_defined P) as [s E].
  unfold qwtBezierInterval; rewrite E; eexists; reflexivity.
Qed.

End Scales.

(** ** The cubic evaluator *)

Lemma qwtBezierValue_defined (p1 p2 : QPointF) (iv : QwtInterval) (x : R) :
  px p1 <> px p2 ->
  qwtBezierValue p1 p2 iv x =
    ret (let s1 := (x - px p1) / (px p2 - px p1) in
         let s2 := 1 - s1 in
         ((s2 * py p1 + s1 * minValue iv) * s2 + s1 * s1 * maxValue iv) * s2
         + s1 * s1 * s1 * py p2).
Proof.
  intros N; unfold qwtBezierValue.
  rewrite Rdiv_chk_ok by lra; reflexivity.
Qed.

(** ** The segment search *)

Section Skip.
Variable p : QPolygonF.
Variable x : R.

Let n : Z := size p.
Let P (k : Z) : QPointF := pointAt p k.

(** The search started at [j0] stops at the first segment whose right end
    is not below [x]; the fuel [S (length p)] always suffices. *)
Lemma qwtSkip_finds (fuel : nat) : forall j0 : Z,
  (0 <= j0)%Z -> (j0 + 1 < n)%Z ->
  x <= px (P (n - 1)) ->
  (Z.to_nat (n - 1 - j0) <= fuel)%nat ->
  exists j', qwtSkip fuel p x j0 = ret j' /\
    (j0 <= j')%Z /\ (j' + 1 < n)%Z /\
    (forall k, (j0 < k <= j')%Z -> px (P k) < x) /\
    ~ px (P (j' + 1)) < x.
Proof.
  induction fuel as [| fuel IH]; intros j0 L U Hx F.
  - lia.
  - simpl. rewrite at_in by (fold n; lia). rewrite bind_ret.
    fold (P (j0 + 1)). unfold Rgt_bool.
    destruct (Rlt_dec (px (P (j0 + 1))) x) as [Lt | Ge].
    + rewrite (Rlt_bool_true _ _ Lt).
      assert (j0 + 1 <> n - 1)%Z as Nn.
      { intros E; rewrite E in Lt; lra. }
      destruct (IH (j0 + 1)%Z) as (j' & E & Lj & Uj & Below & Stop);
        [lia | lia | exact Hx | lia |].
      exists j'; repeat split; try assumption; try lia.
      intros k Hk. destruct (Z.eq_dec k (j0 + 1)) as [-> | Nk];
        [exact Lt | apply Below; lia].
    + rewrite (Rlt_bool_false _ _ Ge).
      exists j0; repeat split; try assumption; try lia.
Qed.

(** The segment the search returns is determined by the points and [x]. *)
Lemma qwtSkip_unique (fuel : nat) : forall j0 j' : Z,
  (0 <= j0 <= j')%Z -> (j' + 1 < n)%Z ->
  (forall k, (j0 < k <= j')%Z -> px (P k) < x) ->
  ~ px (P (j' + 1)) < x ->
  (Z.to_nat (j' - j0) < fuel)%nat ->
  qwtSkip fuel p x j0 = ret j'.
Proof.
  induction fuel as [| fuel IH]; intros j0 j' L U Below Stop F.
  - lia.
  - simpl. rewrite at_in by (fold n; lia). rewrite bind_ret.
    fold (P (j0 + 1)). unfold Rgt_bool.
    destruct (Z.eq_dec j0 j') as [-> | Nj].
    + rewrite (Rlt_bool_false _ _ Stop); reflexivity.
    + rewrite Rlt_bool_true by (apply Below; lia).
      apply IH; try assumption; try lia.
      intros k Hk; apply Below; lia.
Qed.

(** Whatever the input, the search of [qwtFitStep] stops on a comparison or
    on a lookup, never for lack of fuel. *)
Lemma qwtSkip_fuel_gen (fuel : nat) : forall j : Z,
  (-1 <= j)%Z -> (n - 1 - j < Z.of_nat fuel)%Z -> (0 < fuel)%nat ->
  qwtSkip fuel p x j <> fail OutOfFuel.
Proof.
  induction fuel as [| fuel IH]; intros j L F Pos; [lia |].
  simpl. destruct (Z_lt_dec (j + 1) n) as [In | Out].
  - rewrite at_in by (fold n; lia). rewrite bind_ret.
    destruct (Rgt_bool x (px (pointAt p (j + 1)))); [| discriminate].
    apply IH; lia.
  - rewrite at_out by (fold n; lia). discriminate.
Qed.

Lemma qwtSkip_fuel (j : Z) : qwtSkip (S (length p)) p x j <> fail OutOfFuel.
Proof.
  destruct (Z_le_dec (-1) j) as [L | L].
  - apply qwtSkip_fuel_gen; [exact L | unfold n, size; lia | lia].
  - simpl. rewrite at_out by lia. discriminate.
Qed.

End Skip.

(** ** The sampling loop of [qwtFitBezier] *)

Section Fit.
Variable p : QPolygonF.
Variable m : Z.
Hypothesis Hsize : (3 <= size p)%Z.
Hypothesis Hinc : increasingX p.
Hypothesis Hm : (2 <= m)%Z.

Let n : Z := size p.
Let P (k : Z) : QPointF := pointAt p k.
Let x1 : R := px (P 0).
Let x2 : R := px (P (n - 1)).
Let delta : R := (x2 - x1) / IZR (m - 1).
Let X (i : Z) : R := x1 + IZR i * delta.

Lemma steps_nonzero : IZR (m - 1) <> 0.
Proof. apply not_0_IZR; lia. Qed.

Lemma delta_pos : 0 < delta.
Proof.
  unfold delta; apply Rdiv_lt_0_compat.
  - assert (x1 < x2); [| lra].
    apply increasingX_lt; [exact Hinc | lia | fold n; lia | fold n; lia].
  - apply (IZR_lt 0); lia.
Qed.

Lemma X_lt (i k : Z) : (i < k)%Z -> X i < X k.
Proof.
  intros L; unfold X.
  pose proof delta_pos as D. pose proof (IZR_lt _ _ L) as I.
  assert (IZR i * delta < IZR k * delta) by (apply Rmult_lt_compat_r; assumption).
  lra.
Qed.

Lemma X_first : X 0 = x1.
Proof. unfold X; simpl; ring. Qed.

Lemma X_last : X (m - 1) = x2.
Proof. unfold X, delta; pose proof steps_nonzero; field; assumption. Qed.

Lemma X_le_last (i : Z) : (i <= m - 1)%Z -> X i <= x2.
Proof.
  intros L; rewrite <- X_last.
  destruct (Z.eq_dec i (m - 1)) as [-> | N]; [apply Rle_refl |].
  apply Rlt_le, X_lt; lia.
Qed.

Lemma segment_distinct (j : Z) :
  (0 <= j)%Z -> (j + 1 < n)%Z -> px (P j) <> px (P (j + 1)).
Proof.
  intros L U.
  assert (px (P j) < px (P (j + 1))); [| lra].
  apply increasingX_step; [exact Hinc | lia | exact U].
Qed.

(** Every segment has its interval. *)
Lemma segmentInterval_defined (j : Z) :
  (0 <= j)%Z -> (j + 1 < n)%Z -> exists iv, segmentInterval p j = ret iv.
Proof.
  intros L U; unfold segmentInterval.
  destruct (Z.eqb_spec j 0) as [-> | N].
  - rewrite !at_in by (fold n; lia); rewrite !bind_ret.
    apply interval_defined, qwtLineLength_pos_x.
    apply (segment_distinct 0); lia.
  - rewrite !at_in by (fold n; lia); rewrite !bind_ret.
    apply interval_defined, qwtLineLength_pos_x.
    apply (segment_distinct j); lia.
Qed.

(** One round of the loop, from the invariant: the round succeeds, appends
    the sample the naive variant computes on its own, and re-establishes
    the invariant for the next abscissa. *)
Lemma qwtFitStep_sound (i : Z) (st : FitState) :
  (0 <= i <= m - 1)%Z ->
  FitInv p (X i) st ->
  exists j iv y,
    qwtFitStep p x1 delta i st =
      ret (mkFit j iv (fittedPoints st ++ [mkPoint (X i) y])) /\
    naiveSample p x1 delta i = ret (mkPoint (X i) y) /\
    (cursor st <= j)%Z /\
    (j <> cursor st -> (0 <= j - 1)%Z) /\
    FitInv p (X (i + 1)) (mkFit j iv (fittedPoints st ++ [mkPoint (X i) y])).
Proof.
  intros Hi (L & U & Hiv & Below).
  assert (X i <= px (pointAt p (size p - 1))) as Hx by (apply X_le_last; lia).
  assert (X i < X (i + 1)) as Hnext by (apply X_lt; lia).
  unfold qwtFitStep, naiveSample, enclosingSegment.
  change (x1 + IZR i * delta) with (X i).
  rewrite (at_in p (cursor st + 1)) by lia. rewrite bind_ret.
  destruct (Rgt_bool (X i) (px (pointAt p (cursor st + 1)))) eqn:G.
  - (* the sample lies beyond the cached segment *)
    apply Rlt_bool_spec in G.
    destruct (qwtSkip_finds p (X i) (S (length p)) (cursor st))
      as (j & E & Lj & Uj & Passed & Stop);
      [lia | exact U | exact Hx | unfold size; lia |].
    assert (j <> cursor st) as Nj by (intros ->; contradiction).
    rewrite E, bind_ret.
    rewrite (at_in p (j - 1)), (at_in p j), (at_in p (j + 1)),
      (at_in p (Z.min (size p - 1) (j + 2))) by lia.
    rewrite !bind_ret.
    destruct (interval_defined (pointAt p (j - 1)) (pointAt p j)
                (pointAt p (j + 1)) (pointAt p (Z.min (size p - 1) (j + 2))))
      as [iv Eiv].
    { apply qwtLineLength_pos_x, segment_distinct; [lia | exact Uj]. }
    rewrite Eiv, !bind_ret. cbn [fst snd].
    rewrite (at_in p j), (at_in p (j + 1)) by lia. rewrite !bind_ret.
    rewrite qwtBezierValue_defined by (apply segment_distinct; [lia | exact Uj]).
    rewrite bind_ret.
    assert (segmentInterval p j = ret iv) as Sj.
    { unfold segmentInterval. destruct (Z.eqb_spec j 0) as [Z0 | _]; [lia |].
      rewrite (at_in p (j - 1)), (at_in p j), (at_in p (j + 1)),
        (at_in p (Z.min (size p - 1) (j + 2))) by lia.
      rewrite !bind_ret. exact Eiv. }
    assert (forall k, (0 < k <= j)%Z -> px (pointAt p k) < X i) as All.
    { intros k Hk. destruct (Z_le_dec k (cursor st)); [apply Below | apply Passed]; lia. }
    exists j, iv; eexists. split; [reflexivity |].
    split; [| split; [lia | split; [lia |]]].
    + rewrite (qwtSkip_unique p (X i) (S (length p)) 0 j);
        [| lia | exact Uj | exact All | exact Stop | unfold size in Uj; lia].
      rewrite bind_ret, Sj, bind_ret.
      rewrite (at_in p j), (at_in p (j + 1)) by lia. rewrite !bind_ret.
      rewrite qwtBezierValue_defined by (apply segment_distinct; [lia | exact Uj]).
      reflexivity.
    + unfold FitInv; cbn [cursor intv].
      repeat split; [lia | exact Uj | exact Sj |].
      intros k Hk. apply Rlt_trans with (X i); [apply All; exact Hk | exact Hnext].
  - (* the sample stays in the cached segment *)
    assert (~ px (pointAt p (cursor st + 1)) < X i) as Stop.
    { intros C. apply Rlt_bool_spec in C. unfold Rgt_bool in G. congruence. }
    rewrite bind_ret. cbn [fst snd].
    rewrite (at_in p (cursor st)), (at_in p (cursor st + 1)) by lia.
    rewrite !bind_ret.
    rewrite qwtBezierValue_defined by (apply segment_distinct; [lia | exact U]).
    rewrite bind_ret.
    exists (cursor st), (intv st); eexists. split; [reflexivity |].
    split; [| split; [lia | split; [congruence |]]].
    + rewrite (qwtSkip_unique p (X i) (S (length p)) 0 (cursor st));
        [| lia | exact U | exact Below | exact Stop | unfold size in U; lia].
      rewrite bind_ret, Hiv, bind_ret.
      rewrite (at_in p (cursor st)), (at_in p (cursor st + 1)) by lia.
      rewrite !bind_ret.
      rewrite qwtBezierValue_defined by (apply segment_distinct; [lia | exact U]).
      reflexivity.
    + unfold FitInv; cbn [cursor intv].
      repeat split; [lia | exact U | exact Hiv |].
      intros k Hk. apply Rlt_trans with (X i); [apply Below; exact Hk | exact Hnext].
Qed.

(** Any number of rounds that stays within the [m] samples. *)
Lemma qwtFitLoop_sound (rounds : nat) : forall (i : Z) (st : FitState),
  (0 <= i)%Z -> (i + Z.of_nat rounds <= m)%Z ->
  FitInv p (X i) st ->
  exists st' pts,
    qwtFitLoop rounds p x1 delta i st = ret st' /\
    naiveLoop rounds p x1 delta i = ret pts /\
    fittedPoints st' = fittedPoints st ++ pts /\
    (cursor st <= cursor st')%Z /\
    FitInv p (X (i + Z.of_nat rounds)) st' /\
    length pts = rounds /\
    forall k, (0 <= k < Z.of_nat rounds)%Z -> px (pointAt pts k) = X (i + k).
Proof.
  induction rounds as [| rounds IH]; intros i st Li Ui Inv.
  - exists st, []. simpl. rewrite app_nil_r.
    replace (i + 0)%Z with i by lia.
    repeat split; try reflexivity; try lia; try apply Inv.
  - destruct (qwtFitStep_sound i st) as (j & iv & y & Estep & Enaive & Lj & _ & Inv');
      [lia | exact Inv |].
    destruct (IH (i + 1)%Z _ ltac:(lia) ltac:(lia) Inv')
      as (st' & pts & Eloop & Enl & Efit & Lc & Inv'' & Len & Xs).
    exists st', (mkPoint (X i) y :: pts).
    cbn [qwtFitLoop naiveLoop]. rewrite Estep, Enaive, !bind_ret, Eloop, Enl, bind_ret.
    cbn [cursor fittedPoints] in Efit, Lc.
    replace (i + Z.of_nat (S rounds))%Z with (i + 1 + Z.of_nat rounds)%Z by lia.
    split; [reflexivity | split; [reflexivity |]].
    split; [rewrite Efit, <- app_assoc; reflexivity |].
    split; [lia |].
    split; [exact Inv'' |].
    split; [simpl; congruence |].
    intros k Hk. destruct (Z.eq_dec k 0) as [-> | Nk].
    + unfold pointAt; simpl. f_equal; lia.
    + rewrite pointAt_cons by lia. rewrite Xs by lia. f_equal; lia.
Qed.

(** The whole function: it succeeds, agrees with the naive variant and
    samples at the evenly spaced abscissae. *)
Lemma qwtFitBezier_sound :
  exists out,
    qwtFitBezier p m = ret out /\
    qwtFitBezier_naive p m = ret out /\
    size out = m /\
    forall k, (0 <= k < m)%Z -> px (pointAt out k) = X k.
Proof.
  destruct (segmentInterval_defined 0) as [iv0 E0]; [lia | fold n; lia |].
  assert (FitInv p (X 0) (mkFit 0 iv0 [])) as Inv0.
  { unfold FitInv; cbn [cursor intv]. repeat split; [lia | lia | exact E0 |].
    intros k Hk; lia. }
  destruct (qwtFitLoop_sound (Z.to_nat m) 0 _ ltac:(lia) ltac:(lia) Inv0)
    as (st & pts & Eloop & Enl & Efit & _ & _ & Len & Xs).
  exists pts. unfold qwtFitBezier, qwtFitBezier_naive.
  destruct (Z.leb_spec (size p) 2) as [C | _]; [lia |].
  unfold segmentInterval in E0; simpl (0 =? 0)%Z in E0; cbv iota in E0.
  rewrite (at_in p 0), (at_in p (size p - 1)) in * by lia.
  rewrite (at_in p 1), (at_in p 2) in * by lia.
  rewrite !bind_ret in *.
  rewrite Rdiv_chk_ok by apply steps_nonzero.
  rewrite !bind_ret.
  change ((px (pointAt p (size p - 1)) - px (pointAt p 0)) / IZR (m - 1)) with delta.
  change (px (pointAt p 0)) with x1.
  rewrite E0, bind_ret, Eloop, bind_ret, Enl, Efit.
  repeat split.
  - unfold size; rewrite Len; lia.
  - intros k Hk. rewrite Xs by lia. f_equal.
Qed.

(** The cursor before and after the round with counter [i]. *)
Lemma qwtFitBezier_cursor (i : Z) (iv0 : QwtInterval) :
  (0 <= i < m)%Z ->
  segmentInterval p 0 = ret iv0 ->
  exists st st',
    qwtFitLoop (Z.to_nat i) p x1 delta 0 (mkFit 0 iv0 []) = ret st /\
    qwtFitStep p x1 delta i st = ret st' /\
    (0 <= cursor st)%Z /\ (cursor st + 1 <= n - 1)%Z /\
    (cursor st <= cursor st')%Z /\ (cursor st' + 1 <= n - 1)%Z /\
    (cursor st' <> cursor st -> (0 <= cursor st' - 1)%Z).
Proof.
  intros Hi E0.
  assert (FitInv p (X 0) (mkFit 0 iv0 [])) as Inv0.
  { unfold FitInv; cbn [cursor intv]. repeat split; [lia | fold n; lia | exact E0 |].
    intros k Hk; lia. }
  destruct (qwtFitLoop_sound (Z.to_nat i) 0 _ ltac:(lia) ltac:(lia) Inv0)
    as (st & pts & Eloop & _ & _ & _ & Inv & _).
  replace (0 + Z.of_nat (Z.to_nat i))%Z with i in Inv by lia.
  destruct (qwtFitStep_sound i st ltac:(lia) Inv)
    as (j & iv & y & Estep & _ & Lj & Rec & Inv').
  destruct Inv as (L & U & _). destruct Inv' as (_ & U' & _).
  cbn [cursor] in U'. fold n in U, U'.
  exists st; eexists. split; [exact Eloop | split; [exact Estep |]].
  cbn [cursor] in *. repeat split; try lia.
Qed.

End Fit.

(** Increasing abscissae, from the comparison of neighbours. *)
Lemma increasingX_of_steps (l : QPolygonF) :
  (forall k, (0 <= k)%Z -> (k + 1 < size l)%Z ->
     px (pointAt l k) < px (pointAt l (k + 1))) ->
  increasingX l.
Proof.
  induction l as [| a l IH]; intros Hs; [exact I |].
  destruct l as [| b l]; [exact I |].
  split.
  - apply (Hs 0%Z); [lia | rewrite !size_cons; unfold size; lia].
  - apply IH. intros k L U.
    specialize (Hs (k + 1)%Z ltac:(lia)).
    rewrite (pointAt_cons a (b :: l) (k + 1)) in Hs by lia.
    rewrite (pointAt_cons a (b :: l) (k + 1 + 1)) in Hs by lia.
    replace (k + 1 - 1)%Z with k in Hs by lia.
    replace (k + 1 + 1 - 1)%Z with (k + 1)%Z in Hs by lia.
    apply Hs. rewrite size_cons; lia.
Qed.

(** * The properties of the specification *)

(** ** C1: the scale selection *)

(** C1, as amended.  In the Bezier interval constructor, for every four
    points the two conditions test whether the chord-based estimates
    [d(p0,p2) / 6] and [d(p1,p3) / 6] are strictly below the central
    half-length [d(p1,p2) / 2], and the scale factors are: both conditions
    true, the fixed scale 1/6, and 1/3 on a side whose neighbour coincides
    with the segment endpoint; left false and right true,
    [s1 = s2 = half / d(p0,p2)]; left true and right false,
    [s1 = s2 = half / d(p1,p3)]; both false, [s1 = half / d(p0,p2)] and
    [s2 = half / d(p1,p3)], the two divisions failing on a chord of length
    zero. *)
Theorem qwtBezierScales_cases (p0 p1 p2 p3 : QPointF) :
  let d02 := qwtLineLength p0 p2 in
  let d13 := qwtLineLength p1 p3 in
  let half := 0.5 * qwtLineLength p1 p2 in
  (d02 / 6 < half -> d13 / 6 < half ->
     exists s1 s2, qwtBezierScales p0 p1 p2 p3 = ret (s1, s2) /\
       (p0 <> p1 -> s1 = 1 / 6) /\ (p0 = p1 -> s1 = 1 / 3) /\
       (p2 <> p3 -> s2 = 1 / 6) /\ (p2 = p3 -> s2 = 1 / 3)) /\
  (~ d02 / 6 < half -> d13 / 6 < half ->
     qwtBezierScales p0 p1 p2 p3 = ret (half / d02, half / d02)) /\
  (d02 / 6 < half -> ~ d13 / 6 < half ->
     qwtBezierScales p0 p1 p2 p3 = ret (half / d13, half / d13)) /\
  (~ d02 / 6 < half -> ~ d13 / 6 < half ->
     qwtBezierScales p0 p1 p2 p3 =
       (s1 <- half /? d02 ;; s2 <- half /? d13 ;; ret (s1, s2)) /\
     (d02 <> 0 -> d13 <> 0 ->
        qwtBezierScales p0 p1 p2 p3 = ret (half / d02, half / d13))).
Proof.
  intros d02 d13 half. repeat split.
  - intros B1 B2. rewrite (scales_both p0 p1 p2 p3 B1 B2).
    do 2 eexists; split; [reflexivity |].
    repeat split; intros K.
    + apply QPointF_neq_spec in K; rewrite K; reflexivity.
    + subst p1; rewrite QPointF_neq_same; reflexivity.
    + apply QPointF_neq_spec in K; rewrite K; reflexivity.
    + subst p3; rewrite QPointF_neq_same; reflexivity.
  - apply scales_left_false.
  - apply scales_right_false.
  - apply scales_both_false; assumption.
  - intros N02 N13.
    rewrite (scales_both_false p0 p1 p2 p3) by assumption.
    fold d02 d13 half. rewrite !Rdiv_chk_ok by assumption. reflexivity.
Qed.

(** The chords of four points on a level line, as used below. *)
Lemma level_chords :
  qwtLineLength (mkPoint 0 0) (mkPoint 4 0) = 4 /\
  qwtLineLength (mkPoint 3 0) (mkPoint 7 0) = 4 /\
  qwtLineLength (mkPoint 3 0) (mkPoint 4 0) = 1.
Proof.
  repeat split; rewrite qwtLineLength_level_lt; simpl; lra.
Qed.

(** C1, witness: the points (0,0), (1,0), (4,0), (5,0) fall in the first
    case and get the scale 1/6 on both sides. *)
Lemma qwtBezierScales_cases_witness :
  exists s1 s2,
    qwtBezierScales (mkPoint 0 0) (mkPoint 1 0) (mkPoint 4 0) (mkPoint 5 0)
      = ret (s1, s2) /\ s1 = 1 / 6 /\ s2 = 1 / 6.
Proof.
  destruct (qwtBezierScales_cases (mkPoint 0 0) (mkPoint 1 0) (mkPoint 4 0) (mkPoint 5 0))
    as [Both _].
  destruct Both as (s1 & s2 & E & A & _ & B & _).
  - rewrite !qwtLineLength_level_lt; simpl; lra.
  - rewrite !qwtLineLength_level_lt; simpl; lra.
  - exists s1, s2; split; [exact E | split].
    + apply A; intros K; apply (f_equal px) in K; simpl in K; lra.
    + apply B; intros K; apply (f_equal px) in K; simpl in K; lra.
Defined.

(** C1, counterexample.  For (0,0), (3,0), (4,0), (7,0) both estimates
    (4/6) exceed the half-length (1/2); read with "exceeds", the claim gives
    the fixed scale 1/6, while the code takes the last branch and returns
    (1/2)/4 on both sides. *)
Lemma qwtBezierScales_not_exceeds :
  qwtBezierScales (mkPoint 0 0) (mkPoint 3 0) (mkPoint 4 0) (mkPoint 7 0)
  <> exceedsBezierScales (mkPoint 0 0) (mkPoint 3 0) (mkPoint 4 0) (mkPoint 7 0).
Proof.
  destruct level_chords as (D02 & D13 & D12).
  unfold qwtBezierScales, exceedsBezierScales, Rgt_bool.
  rewrite D02, D13, D12.
  rewrite (Rlt_bool_false (4 / 6) (0.5 * 1)) by lra.
  rewrite (Rlt_bool_true (0.5 * 1) (4 / 6)) by lra.
  rewrite (QPointF_neq_x (mkPoint 0 0) (mkPoint 3 0)) by (simpl; lra).
  rewrite (QPointF_neq_x (mkPoint 4 0) (mkPoint 7 0)) by (simpl; lra).
  simpl. rewrite Rdiv_chk_ok by lra. simpl.
  intros E. injection E as E _. lra.
Qed.

(** ** C7: the cubic evaluator *)

(** C7.  For segment endpoints with [p1.x <> p2.x], every interval and every
    [x], the evaluator returns
    [((s2*p1.y + s1*min)*s2 + s1^2*max)*s2 + s1^3*p2.y] with
    [s1 = (x - p1.x) / (p2.x - p1.x)] and [s2 = 1 - s1]. *)
Theorem qwtBezierValue_horner (p1 p2 : QPointF) (interval : QwtInterval) (x : R) :
  px p1 <> px p2 ->
  let s1 := (x - px p1) / (px p2 - px p1) in
  let s2 := 1 - s1 in
  qwtBezierValue p1 p2 interval x =
    ret (((s2 * py p1 + s1 * minValue interval) * s2
          + s1 ^ 2 * maxValue interval) * s2
         + s1 ^ 3 * py p2).
Proof.
  intros N s1 s2. rewrite qwtBezierValue_defined by exact N.
  unfold ret. apply f_equal. cbv zeta. fold s1 s2. ring.
Qed.

(** C7, witness: the segment from (0,0) to (2,4) with the interval (3,6),
    evaluated at [x = 1]. *)
Lemma qwtBezierValue_horner_witness :
  qwtBezierValue (mkPoint 0 0) (mkPoint 2 4) (mkInterval 3 6) 1 = ret (13 / 8).
Proof.
  rewrite (qwtBezierValue_horner (mkPoint 0 0) (mkPoint 2 4) (mkInterval 3 6) 1)
    by (simpl; lra).
  unfold ret; apply f_equal; simpl; field.
Defined.

(** ** C9: the seed of the first segment *)

(** C9, as amended.  For a first-segment interval construction, where
    [p0 = p1] and the three points are distinct, the left condition holds
    and no chord of length zero is divided by: when the right condition
    holds as well the left side takes the scale 1/3 (and the right side
    1/6), otherwise both sides take [half / d(p1,p3)] with [d(p1,p3) > 0]. *)
Theorem qwtBezierScales_first_segment (a b c : QPointF) :
  a <> b -> b <> c -> a <> c ->
  let half := 0.5 * qwtLineLength a b in
  let d13 := qwtLineLength a c in
  qwtLineLength a b / 6 < half /\
  (d13 / 6 < half -> qwtBezierScales a a b c = ret (1 / 3, 1 / 6)) /\
  (~ d13 / 6 < half ->
     d13 <> 0 /\ qwtBezierScales a a b c = ret (half / d13, half / d13)).
Proof.
  intros Nab Nbc Nac half d13.
  pose proof (qwtLineLength_pos a b Nab) as Pab.
  pose proof (qwtLineLength_pos a c Nac) as Pac.
  assert (qwtLineLength a b / 6 < half) as B1 by (unfold half; lra).
  split; [exact B1 | split].
  - intros B2. rewrite (scales_both a a b c B1 B2).
    rewrite QPointF_neq_same.
    apply QPointF_neq_spec in Nbc; rewrite Nbc. reflexivity.
  - intros B2. split; [fold d13 in Pac; lra |].
    apply scales_right_false; assumption.
Qed.

(** C9, witness: the seed of the polygon (0,0), (1,0), (2,0). *)
Lemma qwtBezierScales_first_segment_witness :
  qwtBezierScales (mkPoint 0 0) (mkPoint 0 0) (mkPoint 1 0) (mkPoint 2 0)
  = ret (1 / 3, 1 / 6).
Proof.
  assert (forall u v : R, u <> v -> mkPoint u 0 <> mkPoint v 0) as D.
  { intros u v N K; apply (f_equal px) in K; simpl in K; contradiction. }
  destruct (qwtBezierScales_first_segment (mkPoint 0 0) (mkPoint 1 0) (mkPoint 2 0))
    as (_ & Both & _); [apply D; lra | apply D; lra | apply D; lra |].
  apply Both. rewrite !qwtLineLength_level_lt; simpl; lra.
Defined.

(** C9, counterexample.  The seed of the polygon (0,0), (1,0), (3,0): the
    right chord is three times the segment, the right condition fails, and
    the left scale is (1/2)/3, not 1/3. *)
Lemma qwtBezierScales_first_segment_not_third :
  ~ exists s1 s2,
      qwtBezierScales (mkPoint 0 0) (mkPoint 0 0) (mkPoint 1 0) (mkPoint 3 0)
        = ret (s1, s2) /\ s1 = 1 / 3.
Proof.
  intros (s1 & s2 & E & T).
  rewrite scales_right_false in E.
  - rewrite !qwtLineLength_level_lt in E by (simpl; lra). simpl in E.
    injection E as E1 _. lra.
  - rewrite !qwtLineLength_level_lt; simpl; lra.
  - rewrite !qwtLineLength_level_lt; simpl; lra.
Qed.

(** ** C6: the spline size *)

(** C6.  On either fitter, [setSplineSize(n)] makes [splineSize()] return
    [max(n, 10)]: 10 for every [n <= 9]; setting twice is setting once, and
    250 set twice reads 250. *)
Theorem setSplineSize_clamps (Sp : Type) (ops : BezierSpline Sp)
  (n : Z) (d : Fitter.PrivateData Sp) (d2 : Fitter2.PrivateData) :
  Fitter.splineSize (Fitter.setSplineSize n d) = Z.max n 10 /\
  Fitter2.splineSize (Fitter2.setSplineSize n d2) = Z.max n 10 /\
  ((n <= 9)%Z ->
     Fitter.splineSize (Fitter.setSplineSize n d) = 10%Z /\
     Fitter2.splineSize (Fitter2.setSplineSize n d2) = 10%Z) /\
  Fitter.setSplineSize n (Fitter.setSplineSize n d) = Fitter.setSplineSize n d /\
  Fitter2.setSplineSize n (Fitter2.setSplineSize n d2) = Fitter2.setSplineSize n d2 /\
  Fitter.splineSize (Fitter.setSplineSize 250 (Fitter.setSplineSize 250 d)) = 250%Z /\
  Fitter2.splineSize (Fitter2.setSplineSize 250 (Fitter2.setSplineSize 250 d2)) = 250%Z.
Proof.
  unfold Fitter.setSplineSize, Fitter2.setSplineSize; simpl.
  repeat split; try reflexivity; intros; lia.
Qed.

(** C6, witness: a requested size of 3 on freshly constructed fitters. *)
Lemma setSplineSize_clamps_witness :
  Fitter.splineSize (Fitter.setSplineSize 3 (Fitter.newFitter (Sp := QPolygonF) 250)) = 10%Z /\
  Fitter2.splineSize (Fitter2.setSplineSize 3 (Fitter2.newFitter 250)) = 10%Z.
Proof.
  destruct (setSplineSize_clamps QPolygonF StoredSpline 3
              (Fitter.newFitter 250) (Fitter2.newFitter 250))
    as (_ & _ & Small & _).
  apply Small. lia.
Defined.

(** ** C3: short inputs *)

(** C3.  An input of at most two points comes back unchanged from the
    [fitCurve] of both fitters, whatever their spline size, and from
    [qwtFitBezier], whatever the sample count; the object-owned fitter is
    left as it was. *)
Theorem fit_short_input_unchanged (Sp : Type) (ops : BezierSpline Sp)
  (points : QPolygonF) (numPoints : Z)
  (d : Fitter.PrivateData Sp) (d2 : Fitter2.PrivateData) :
  (size points <= 2)%Z ->
  Fitter.fitCurve points d = ret (points, d) /\
  Fitter2.fitCurve points d2 = ret points /\
  qwtFitBezier points numPoints = ret points.
Proof.
  intros Small.
  unfold Fitter.fitCurve, Fitter2.fitCurve, qwtFitBezier.
  destruct (Z.leb_spec (size points) 2) as [_ | C]; [| lia].
  repeat split.
Qed.

(** C3, witness: a polygon of two points, sample count 0. *)
Lemma fit_short_input_unchanged_witness :
  let two := [mkPoint 0 0; mkPoint 1 5] in
  Fitter.fitCurve two (Fitter.newFitter (Sp := QPolygonF) 100)
    = ret (two, Fitter.newFitter 100) /\
  Fitter2.fitCurve two (Fitter2.newFitter 100) = ret two /\
  qwtFitBezier two 0 = ret two.
Proof.
  intros two.
  apply (fit_short_input_unchanged QPolygonF StoredSpline two 0).
  unfold size; simpl; lia.
Defined.

(** ** C8: the spline state after a fit *)

(** On the fallback path [fitSpline] returns before its [reset]. *)
Lemma fitSpline_fallback (Sp : Type) (ops : BezierSpline Sp)
  (points : QPolygonF) (d : Fitter.PrivateData Sp) :
  isValid (setPoints points (Fitter.spline d)) = false ->
  Fitter.fitSpline points d =
    ret (points, Fitter.mkData (setPoints points (Fitter.spline d))
                   (Fitter.splineSize d)).
Proof.
  intros V; unfold Fitter.fitSpline; cbn [Fitter.spline Fitter.splineSize].
  rewrite V; reflexivity.
Qed.

(** On the sampling path the spline is reset after the last sample. *)
Lemma fitSpline_resets (Sp : Type) (ops : BezierSpline Sp)
  (points : QPolygonF) (d : Fitter.PrivateData Sp) :
  isValid (setPoints points (Fitter.spline d)) = true ->
  (1 <= size points)%Z ->
  (Fitter.splineSize d <> 1)%Z ->
  exists fitted,
    Fitter.fitSpline points d =
      ret (fitted, Fitter.mkData (reset (setPoints points (Fitter.spline d)))
                     (Fitter.splineSize d)).
Proof.
  intros V Hs Hn; unfold Fitter.fitSpline; cbn [Fitter.spline Fitter.splineSize].
  rewrite V; cbn [negb].
  rewrite !at_in by lia. rewrite !bind_ret.
  rewrite Rdiv_chk_ok by (apply not_0_IZR; lia).
  rewrite bind_ret. eexists; reflexivity.
Qed.

(** C8, at the failing input: three points stacked at [x = 0], a spline that
    reports them invalid.  [fitCurve] returns the input and leaves the three
    points loaded in the spline, which is no state that [reset] produces. *)
Theorem fitCurve_fallback_keeps_points :
  Fitter.fitCurve stacked3 (Fitter.newFitter 250)
    = ret (stacked3, Fitter.mkData stacked3 250) /\
  forall s : QPolygonF, reset s <> stacked3.
Proof.
  split.
  - unfold Fitter.fitCurve.
    destruct (Z.leb_spec (size stacked3) 2) as [C | _];
      [unfold size in C; simpl in C; lia |].
    rewrite fitSpline_fallback; [reflexivity |].
    simpl. apply Rlt_bool_false; lra.
  - intros s; simpl; unfold stacked3; discriminate.
Qed.

(** ** C2: the samples of [qwtFitBezier] *)

(** C2.  For an input of at least three points with strictly increasing
    abscissae and a sample count [m >= 2], [qwtFitBezier] returns exactly
    [m] points with strictly increasing abscissae, the first at the first
    input abscissa and the last at the last input abscissa. *)
Theorem qwtFitBezier_samples (p : QPolygonF) (m : Z) :
  (3 <= size p)%Z -> increasingX p -> (2 <= m)%Z ->
  exists out first last out_first out_last,
    qwtFitBezier p m = ret out /\
    size out = m /\
    increasingX out /\
    at_ p 0 = ret first /\ at_ p (size p - 1) = ret last /\
    at_ out 0 = ret out_first /\ at_ out (m - 1) = ret out_last /\
    px out_first = px first /\ px out_last = px last.
Proof.
  intros Hs Hi Hm.
  destruct (qwtFitBezier_sound p m Hs Hi Hm) as (out & E & _ & Len & Xs).
  exists out, (pointAt p 0), (pointAt p (size p - 1)),
    (pointAt out 0), (pointAt out (m - 1)).
  split; [exact E | split; [exact Len |]].
  split.
  { apply increasingX_of_steps; intros k L U.
    rewrite !Xs by lia. apply (X_lt p m Hs Hi Hm); lia. }
  rewrite !at_in by lia.
  repeat split.
  - rewrite Xs by lia. apply (X_first p m).
  - rewrite Xs by lia. apply (X_last p m Hm).
Qed.

(** C2, witness: the collinear polygon (0,0), (1,1), (2,2), five samples. *)
Lemma qwtFitBezier_samples_witness :
  exists out first last out_first out_last,
    qwtFitBezier line3 5 = ret out /\
    size out = 5%Z /\
    increasingX out /\
    at_ line3 0 = ret first /\ at_ line3 (size line3 - 1) = ret last /\
    at_ out 0 = ret out_first /\ at_ out (5 - 1) = ret out_last /\
    px out_first = px first /\ px out_last = px last.
Proof.
  apply (qwtFitBezier_samples line3 5).
  - unfold size; simpl; lia.
  - simpl; lra.
  - lia.
Defined.

(** ** C4: the cached interval against the naive variant *)

(** C4.  For an input of at least three points with strictly increasing
    abscissae and a sample count [m >= 2], [qwtFitBezier], which recomputes
    its cached interval only when a sample crosses into a new segment,
    returns the very sequence of the naive variant, which for every sample
    searches the enclosing segment and computes its interval afresh. *)
Theorem qwtFitBezier_caching_exact (p : QPolygonF) (m : Z) :
  (3 <= size p)%Z -> increasingX p -> (2 <= m)%Z ->
  exists out,
    qwtFitBezier p m = ret out /\ qwtFitBezier_naive p m = ret out.
Proof.
  intros Hs Hi Hm.
  destruct (qwtFitBezier_sound p m Hs Hi Hm) as (out & E & En & _).
  exists out; split; assumption.
Qed.

(** C4, witness: the polygon (0,0), (1,2), (2,0), (3,2), (4,0), nine
    samples. *)
Lemma qwtFitBezier_caching_exact_witness :
  exists out,
    qwtFitBezier zigzag5 9 = ret out /\ qwtFitBezier_naive zigzag5 9 = ret out.
Proof.
  apply (qwtFitBezier_caching_exact zigzag5 9).
  - unfold size; simpl; lia.
  - simpl; lra.
  - lia.
Defined.

(** ** C10: the array accesses of [qwtFitBezier] *)

(** C10.  For an input of [n >= 3] points with strictly increasing abscissae
    and a sample count [m >= 2], no lookup of [qwtFitBezier] leaves the
    array: the run ends with a result, and in every round [i < m] the cursor
    [j] satisfies [0 <= j] and [j + 1 <= n - 1] before and after the round,
    with [j - 1 >= 0] and [0 <= min(n-1, j+2) <= n - 1] whenever the round
    moved the cursor and recomputed the interval. *)
Theorem qwtFitBezier_in_bounds (p : QPolygonF) (m : Z) :
  (3 <= size p)%Z -> increasingX p -> (2 <= m)%Z ->
  (exists out, qwtFitBezier p m = ret out) /\
  exists first last p1 p2 iv,
    at_ p 0 = ret first /\ at_ p (size p - 1) = ret last /\
    at_ p 1 = ret p1 /\ at_ p 2 = ret p2 /\
    qwtBezierInterval first first p1 p2 = ret iv /\
    forall i, (0 <= i < m)%Z ->
    exists st st',
      qwtFitLoop (Z.to_nat i) p (px first)
        ((px last - px first) / IZR (m - 1)) 0 (mkFit 0 iv []) = ret st /\
      qwtFitStep p (px first) ((px last - px first) / IZR (m - 1)) i st
        = ret st' /\
      (0 <= cursor st)%Z /\ (cursor st + 1 <= size p - 1)%Z /\
      (0 <= cursor st')%Z /\ (cursor st' + 1 <= size p - 1)%Z /\
      (cursor st' <> cursor st ->
         (0 <= cursor st' - 1)%Z /\
         (0 <= Z.min (size p - 1) (cursor st' + 2) <= size p - 1)%Z).
Proof.
  intros Hs Hi Hm. split.
  - destruct (qwtFitBezier_sound p m Hs Hi Hm) as (out & E & _).
    exists out; exact E.
  - destruct (segmentInterval_defined p Hs Hi 0%Z) as [iv E0]; [lia | lia |].
    exists (pointAt p 0), (pointAt p (size p - 1)), (pointAt p 1), (pointAt p 2), iv.
    rewrite !at_in by lia.
    repeat split.
    + unfold segmentInterval in E0; simpl (0 =? 0)%Z in E0; cbv iota in E0.
      rewrite !at_in in E0 by lia. exact E0.
    + intros i Hrange.
      destruct (qwtFitBezier_cursor p m Hs Hi Hm i iv Hrange E0)
        as (st & st' & Eloop & Estep & L & U & L' & U' & Rec).
      exists st, st'.
      split; [exact Eloop | split; [exact Estep |]].
      repeat split; try lia; apply Rec; assumption.
Qed.

(** C10, witness: the polygon (0,0), (1,2), (2,0), (3,2), (4,0), nine
    samples. *)
Lemma qwtFitBezier_in_bounds_witness :
  exists out, qwtFitBezier zigzag5 9 = ret out.
Proof.
  apply (qwtFitBezier_in_bounds zigzag5 9).
  - unfold size; simpl; lia.
  - simpl; lra.
  - lia.
Defined.

(** ** C5: three collinear points *)

Lemma mkPoint_eq (x y x' y' : R) : x = x' -> y = y' -> mkPoint x y = mkPoint x' y'.
Proof. intros -> ->; reflexivity. Qed.

(** The chord between two points of the diagonal [y = x]. *)
Lemma qwtLineLength_diagonal (a b : R) :
  a <= b -> qwtLineLength (mkPoint a a) (mkPoint b b) = (b - a) * sqrt 2.
Proof.
  intros L; unfold qwtLineLength; simpl.
  replace ((a - b) * (a - b) + (a - b) * (a - b)) with (Rsqr (b - a) * 2)
    by (unfold Rsqr; ring).
  rewrite sqrt_mult by (try apply Rle_0_sqr; lra).
  rewrite sqrt_Rsqr by lra. reflexivity.
Qed.

(** A sample of the naive variant, once its segment is known. *)
Lemma naiveSample_in (p : QPolygonF) (x1 delta : R) (i j : Z) (iv : QwtInterval) :
  (0 <= j)%Z -> (j + 1 < size p)%Z ->
  (forall k, (0 < k <= j)%Z -> px (pointAt p k) < x1 + IZR i * delta) ->
  ~ px (pointAt p (j + 1)) < x1 + IZR i * delta ->
  segmentInterval p j = ret iv ->
  naiveSample p x1 delta i =
    (y <- qwtBezierValue (pointAt p j) (pointAt p (j + 1)) iv (x1 + IZR i * delta) ;;
     ret (mkPoint (x1 + IZR i * delta) y)).
Proof.
  intros L U Passed Stop Eiv. unfold naiveSample, enclosingSegment.
  rewrite (qwtSkip_unique p _ (S (length p)) 0 j);
    [| lia | exact U | exact Passed | exact Stop | unfold size in U; lia].
  rewrite bind_ret, Eiv, bind_ret.
  rewrite (at_in p j), (at_in p (j + 1)) by lia.
  rewrite !bind_ret. reflexivity.
Qed.

Lemma line3_size : size line3 = 3%Z.
Proof. reflexivity. Qed.

(** The intervals of the two segments of [line3]. *)
Lemma line3_interval_0 :
  segmentInterval line3 0 =
    ret (mkInterval (3 * (0 + (1 - 0) * (1 / 3))) (3 * (1 + (0 - 2) * (1 / 6)))).
Proof.
  unfold segmentInterval; simpl (0 =? 0)%Z; cbv iota.
  rewrite !at_in by (rewrite line3_size; lia). rewrite !bind_ret.
  unfold pointAt, line3; simpl nth.
  unfold qwtBezierInterval. rewrite scales_both.
  - rewrite QPointF_neq_same.
    rewrite (QPointF_neq_x (mkPoint 1 1) (mkPoint 2 2)) by (simpl; lra).
    rewrite bind_ret. reflexivity.
  - rewrite !qwtLineLength_diagonal by lra.
    pose proof (sqrt_lt_R0 2 ltac:(lra)). lra.
  - rewrite !qwtLineLength_diagonal by lra.
    pose proof (sqrt_lt_R0 2 ltac:(lra)). lra.
Qed.

Lemma line3_interval_1 :
  segmentInterval line3 1 =
    ret (mkInterval (3 * (1 + (2 - 0) * (1 / 6))) (3 * (2 + (1 - 2) * (1 / 3)))).
Proof.
  unfold segmentInterval; simpl (1 =? 0)%Z; cbv iota.
  rewrite !at_in by (rewrite line3_size; lia). rewrite !bind_ret.
  unfold pointAt, line3; simpl nth.
  unfold qwtBezierInterval. rewrite scales_both.
  - rewrite QPointF_neq_same.
    rewrite (QPointF_neq_x (mkPoint 0 0) (mkPoint 1 1)) by (simpl; lra).
    rewrite bind_ret. reflexivity.
  - rewrite !qwtLineLength_diagonal by lra.
    pose proof (sqrt_lt_R0 2 ltac:(lra)). lra.
  - rewrite !qwtLineLength_diagonal by lra.
    pose proof (sqrt_lt_R0 2 ltac:(lra)). lra.
Qed.

(** The samples of the first and of the second segment lie on the line. *)
Lemma line3_sample_0 (i : Z) :
  (0 <= i <= 2)%Z ->
  naiveSample line3 0 ((2 - 0) / 4) i = ret (mkPoint (IZR i / 2) (IZR i / 2)).
Proof.
  intros Hi.
  pose proof (IZR_le _ _ (proj1 Hi)) as L. pose proof (IZR_le _ _ (proj2 Hi)) as U.
  erewrite (naiveSample_in line3 _ _ i 0); cycle 1.
  - lia.
  - rewrite line3_size; lia.
  - intros k Hk; lia.
  - unfold pointAt, line3; simpl. lra.
  - exact line3_interval_0.
  - unfold pointAt, line3; simpl nth.
    rewrite qwtBezierValue_defined by (simpl; lra).
    rewrite bind_ret. unfold ret; apply f_equal. simpl.
    apply mkPoint_eq; field.
Qed.

Lemma line3_sample_1 (i : Z) :
  (3 <= i <= 4)%Z ->
  naiveSample line3 0 ((2 - 0) / 4) i = ret (mkPoint (IZR i / 2) (IZR i / 2)).
Proof.
  intros Hi.
  pose proof (IZR_le _ _ (proj1 Hi)) as L. pose proof (IZR_le _ _ (proj2 Hi)) as U.
  erewrite (naiveSample_in line3 _ _ i 1); cycle 1.
  - lia.
  - rewrite line3_size; lia.
  - intros k Hk. replace k with 1%Z by lia.
    unfold pointAt, line3; simpl. lra.
  - unfold pointAt, line3; simpl. lra.
  - exact line3_interval_1.
  - unfold pointAt, line3; simpl nth.
    rewrite qwtBezierValue_defined by (simpl; lra).
    rewrite bind_ret. unfold ret; apply f_equal. simpl.
    apply mkPoint_eq; field.
Qed.

Lemma qwtFitBezier_naive_line3 : qwtFitBezier_naive line3 5 = ret line5.
Proof.
  unfold qwtFitBezier_naive. rewrite line3_size.
  simpl (3 <=? 2)%Z; cbv iota.
  rewrite !at_in by (rewrite line3_size; lia). rewrite !bind_ret.
  unfold pointAt, line3 at 1 2; simpl nth. simpl px.
  change (IZR (5 - 1)) with 4.
  rewrite Rdiv_chk_ok by lra. rewrite bind_ret.
  change (Z.to_nat 5) with 5%nat. cbn [naiveLoop].
  change (0 + 1)%Z with 1%Z. change (1 + 1)%Z with 2%Z.
  change (2 + 1)%Z with 3%Z. change (3 + 1)%Z with 4%Z.
  rewrite !line3_sample_0 by lia. rewrite !line3_sample_1 by lia.
  rewrite !bind_ret. unfold ret, line5; apply f_equal.
  repeat (apply f_equal2; [apply mkPoint_eq; lra |]). reflexivity.
Qed.

(** C5.  For the input (0,0), (1,1), (2,2) and five samples, [qwtFitBezier]
    returns the points at [x] = 0, 0.5, 1, 1.5, 2 with [y = x] at each. *)
Theorem qwtFitBezier_line3 : qwtFitBezier line3 5 = ret line5.
Proof.
  destruct (qwtFitBezier_sound line3 5) as (out & E & En & _).
  - rewrite line3_size; lia.
  - simpl; lra.
  - lia.
  - rewrite E, <- En. exact qwtFitBezier_naive_line3.
Qed.

(** * Further properties of the code *)

(** ** The distance helper *)

Lemma qwtLineLength_sym (a b : QPointF) : qwtLineLength a b = qwtLineLength b a.
Proof. unfold qwtLineLength; f_equal; ring. Qed.

Lemma qwtLineLength_same (a : QPointF) : qwtLineLength a a = 0.
Proof.
  unfold qwtLineLength.
  replace ((px a - px a) * (px a - px a) + (py a - py a) * (py a - py a)) with 0 by ring.
  apply sqrt_0.
Qed.

Lemma qwtLineLength_square (a b : QPointF) :
  qwtLineLength a b * qwtLineLength a b =
  (px a - px b) * (px a - px b) + (py a - py b) * (py a - py b).
Proof.
  unfold qwtLineLength. apply sqrt_sqrt.
  pose proof (square_nonneg (px a - px b)). pose proof (square_nonneg (py a - py b)).
  lra.
Qed.

(** The ordinates of two points differ by at most their distance. *)
Lemma dy_le_length (a b : QPointF) : Rabs (py a - py b) <= qwtLineLength a b.
Proof.
  unfold qwtLineLength. rewrite <- sqrt_Rsqr_abs. apply sqrt_le_1_alt.
  unfold Rsqr. pose proof (square_nonneg (px a - px b)). lra.
Qed.

(** Only equal points are at distance zero. *)
Lemma qwtLineLength_zero (a b : QPointF) : qwtLineLength a b = 0 -> a = b.
Proof.
  intros Z0. destruct a as [ax ay], b as [bx by_].
  destruct (Req_dec_T ax bx) as [-> | Nx].
  - destruct (Req_dec_T ay by_) as [-> | Ny]; [reflexivity |].
    assert (mkPoint bx ay <> mkPoint bx by_) as N by congruence.
    pose proof (qwtLineLength_pos _ _ N). lra.
  - assert (mkPoint ax ay <> mkPoint bx by_) as N by congruence.
    pose proof (qwtLineLength_pos _ _ N). lra.
Qed.


Lemma dot_le_lengths (dx1 dy1 dx2 dy2 : R) :
  dx1 * dx2 + dy1 * dy2 <=
  sqrt (dx1 * dx1 + dy1 * dy1) * sqrt (dx2 * dx2 + dy2 * dy2).
Proof.
  pose proof (square_nonneg dx1). pose proof (square_nonneg dy1).
  pose proof (square_nonneg dx2). pose proof (square_nonneg dy2).
  apply Rsqr_incr_0_var.
  - unfold Rsqr.
    replace (sqrt (dx1 * dx1 + dy1 * dy1) * sqrt (dx2 * dx2 + dy2 * dy2) *
             (sqrt (dx1 * dx1 + dy1 * dy1) * sqrt (dx2 * dx2 + dy2 * dy2)))
      with ((sqrt (dx1 * dx1 + dy1 * dy1) * sqrt (dx1 * dx1 + dy1 * dy1)) *
            (sqrt (dx2 * dx2 + dy2 * dy2) * sqrt (dx2 * dx2 + dy2 * dy2))) by ring.
    rewrite !sqrt_sqrt by lra.
    pose proof (square_nonneg (dx1 * dy2 - dx2 * dy1)). lra.
  - apply Rmult_le_pos; apply sqrt_pos.
Qed.

(** X2.  The triangle inequality of [qwtLineLength]. *)
Theorem qwtLineLength_triangle (a b c : QPointF) :
  qwtLineLength a c <= qwtLineLength a b + qwtLineLength b c.
Proof.
  pose proof (qwtLineLength_nonneg a b) as Pab.
  pose proof (qwtLineLength_nonneg b c) as Pbc.
  apply Rsqr_incr_0_var; [| lra].
  unfold Rsqr.
  pose proof (qwtLineLength_square a c) as Sac.
  pose proof (qwtLineLength_square a b) as Sab.
  pose proof (qwtLineLength_square b c) as Sbc.
  pose proof (dot_le_lengths (px a - px b) (py a - py b) (px b - px c) (py b - py c)) as D.
  fold (qwtLineLength a b) in D. fold (qwtLineLength b c) in D.
  rewrite Sac.
  replace ((qwtLineLength a b + qwtLineLength b c) * (qwtLineLength a b + qwtLineLength b c))
    with (qwtLineLength a b * qwtLineLength a b + qwtLineLength b c * qwtLineLength b c
          + 2 * (qwtLineLength a b * qwtLineLength b c)) by ring.
  rewrite Sab, Sbc. lra.
Qed.

(** ** The scale factors and the interval of one segment *)

Lemma QPointF_neq_false (a b : QPointF) : QPointF_neq a b = false -> a = b.
Proof.
  intros F. destruct (QPointF_neq a b) eqn:E; [discriminate |].
  destruct a as [ax ay], b as [bx by_].
  destruct (Req_dec_T ax bx) as [-> | Nx].
  - destruct (Req_dec_T ay by_) as [-> | Ny]; [reflexivity |].
    assert (QPointF_neq (mkPoint bx ay) (mkPoint bx by_) = true) as T
      by (apply QPointF_neq_spec; congruence).
    congruence.
  - assert (QPointF_neq (mkPoint ax ay) (mkPoint bx by_) = true) as T
      by (apply QPointF_neq_spec; congruence).
    congruence.
Qed.

Lemma bind_fail {A B : Type} (e : error) (k : A -> result B) :
  bind (fail e) k = fail e.
Proof. reflexivity. Qed.

Lemma Rdiv_chk_zero (a : R) : a /? 0 = fail DivByZero.
Proof. unfold Rdiv_chk; destruct (Req_dec_T 0 0); [reflexivity | congruence]. Qed.

Lemma quotient_pos (h d : R) : 0 < h -> 0 < d -> 0 < h / d.
Proof. intros; apply Rdiv_lt_0_compat; assumption. Qed.

Lemma quotient_times (h d : R) : d <> 0 -> h / d * d = h.
Proof. intros; field; assumption. Qed.

(** [h / d] is at most 1/6 when [d / 6] is not below [h]. *)
Lemma quotient_le_sixth (h d : R) : 0 < d -> ~ d / 6 < h -> h / d <= 1 / 6.
Proof.
  intros Pd N.
  destruct (Rle_lt_dec (h / d) (1 / 6)) as [L | G]; [exact L | exfalso].
  assert (1 / 6 * d < h / d * d) as M by (apply Rmult_lt_compat_r; assumption).
  rewrite quotient_times in M by lra. lra.
Qed.

(** [h / d * u] is at most [h] when [u] is at most [d]. *)
Lemma quotient_scaled (h d u : R) : 0 <= h -> 0 < d -> u <= d -> h / d * u <= h.
Proof.
  intros Ph Pd L.
  assert (0 <= h / d) as Q
    by (unfold Rdiv; apply Rmult_le_pos; [lra | left; apply Rinv_0_lt_compat; lra]).
  apply Rle_trans with (h / d * d); [apply Rmult_le_compat_l; assumption |].
  rewrite quotient_times by lra. lra.
Qed.

Section ScaleBounds.
Variables p0 p1 p2 p3 : QPointF.
Hypothesis segment : 0 < qwtLineLength p1 p2.

Let d02 : R := qwtLineLength p0 p2.
Let d13 : R := qwtLineLength p1 p3.
Let half : R := 0.5 * qwtLineLength p1 p2.

(** Whatever branch is taken, the scales are positive, at most 1/3, at most
    1/6 beside a neighbour that differs from the endpoint, and scale the
    chords to at most half the segment. *)
Lemma scales_bounds :
  exists s1 s2,
    qwtBezierScales p0 p1 p2 p3 = ret (s1, s2) /\
    0 < s1 <= 1 / 3 /\ 0 < s2 <= 1 / 3 /\
    (p0 <> p1 -> s1 <= 1 / 6) /\ (p2 <> p3 -> s2 <= 1 / 6) /\
    s1 * d02 <= half /\ s2 * d13 <= half.
Proof.
  assert (0 < half) as Ph by (unfold half; lra).
  assert (0 <= d02) as P02 by apply qwtLineLength_nonneg.
  assert (0 <= d13) as P13 by apply qwtLineLength_nonneg.
  destruct (Rlt_dec (d02 / 6) half) as [B1 | B1],
           (Rlt_dec (d13 / 6) half) as [B2 | B2].
  - (* both conditions *)
    rewrite (scales_both p0 p1 p2 p3 B1 B2).
    assert (0 < (if QPointF_neq p0 p1 then 1 / 6 else 1 / 3) <= 1 / 3 /\
            (p0 <> p1 -> (if QPointF_neq p0 p1 then 1 / 6 else 1 / 3) <= 1 / 6) /\
            (if QPointF_neq p0 p1 then 1 / 6 else 1 / 3) * d02 <= half) as Left.
    { destruct (QPointF_neq p0 p1) eqn:E.
      - repeat split; intros; lra.
      - apply QPointF_neq_false in E.
        assert (d02 = 2 * half) by (unfold d02, half; rewrite E; lra).
        repeat split; try lra. intros K; contradiction. }
    assert (0 < (if QPointF_neq p2 p3 then 1 / 6 else 1 / 3) <= 1 / 3 /\
            (p2 <> p3 -> (if QPointF_neq p2 p3 then 1 / 6 else 1 / 3) <= 1 / 6) /\
            (if QPointF_neq p2 p3 then 1 / 6 else 1 / 3) * d13 <= half) as Right.
    { destruct (QPointF_neq p2 p3) eqn:E.
      - repeat split; intros; lra.
      - apply QPointF_neq_false in E.
        assert (d13 = 2 * half) by (unfold d13, half; rewrite <- E; lra).
        repeat split; try lra. intros K; contradiction. }
    do 2 eexists; split; [reflexivity |].
    destruct Left as (L1 & L2 & L3), Right as (R1 & R2 & R3).
    repeat split; try apply L1; try apply R1; assumption.
  - (* right condition fails *)
    rewrite (scales_right_false p0 p1 p2 p3 B1 B2). fold half d13.
    assert (0 < d13) as Pd by lra.
    pose proof (quotient_pos half d13 Ph Pd).
    pose proof (quotient_le_sixth half d13 Pd B2).
    pose proof (quotient_scaled half d13 d02 ltac:(lra) Pd ltac:(lra)).
    pose proof (quotient_times half d13 ltac:(lra)).
    do 2 eexists; split; [reflexivity |]. repeat split; intros; lra.
  - (* left condition fails *)
    rewrite (scales_left_false p0 p1 p2 p3 B1 B2). fold half d02.
    assert (0 < d02) as Pd by lra.
    pose proof (quotient_pos half d02 Ph Pd).
    pose proof (quotient_le_sixth half d02 Pd B1).
    pose proof (quotient_scaled half d02 d13 ltac:(lra) Pd ltac:(lra)).
    pose proof (quotient_times half d02 ltac:(lra)).
    do 2 eexists; split; [reflexivity |]. repeat split; intros; lra.
  - (* both fail *)
    rewrite (scales_both_false p0 p1 p2 p3 B1 B2). fold half d02 d13.
    assert (0 < d02) as Pd02 by lra. assert (0 < d13) as Pd13 by lra.
    rewrite !Rdiv_chk_ok by lra. rewrite !bind_ret.
    pose proof (quotient_pos half d02 Ph Pd02).
    pose proof (quotient_pos half d13 Ph Pd13).
    pose proof (quotient_le_sixth half d02 Pd02 B1).
    pose proof (quotient_le_sixth half d13 Pd13 B2).
    pose proof (quotient_times half d02 ltac:(lra)).
    pose proof (quotient_times half d13 ltac:(lra)).
    do 2 eexists; split; [reflexivity |]. repeat split; intros; lra.
Qed.

End ScaleBounds.

(** X3.  For a segment with distinct end points [qwtBezierInterval] never
    divides by zero, and whatever branch it takes its scale factors are
    positive and at most 1/3, at most 1/6 beside a neighbour that differs
    from the segment end, and they shorten the chords [d(p0,p2)] and
    [d(p1,p3)] to at most half the length of the segment. *)
Theorem qwtBezierScales_bounded (p0 p1 p2 p3 : QPointF) :
  p1 <> p2 ->
  exists s1 s2,
    qwtBezierScales p0 p1 p2 p3 = ret (s1, s2) /\
    0 < s1 <= 1 / 3 /\ 0 < s2 <= 1 / 3 /\
    (p0 <> p1 -> s1 <= 1 / 6) /\ (p2 <> p3 -> s2 <= 1 / 6) /\
    s1 * qwtLineLength p0 p2 <= qwtLineLength p1 p2 / 2 /\
    s2 * qwtLineLength p1 p3 <= qwtLineLength p1 p2 / 2.
Proof.
  intros N.
  destruct (scales_bounds p0 p1 p2 p3 (qwtLineLength_pos p1 p2 N))
    as (s1 & s2 & E & B1 & B2 & N1 & N2 & H1 & H2).
  exists s1, s2. repeat split; try assumption; try apply B1; try apply B2; lra.
Qed.

Lemma level_neq (u v : R) : u <> v -> mkPoint u 0 <> mkPoint v 0.
Proof. intros N K; apply (f_equal px) in K; simpl in K; contradiction. Qed.

(** X3, witness: the segment from (1,0) to (2,0) between (0,0) and (9,0). *)
Lemma qwtBezierScales_bounded_witness :
  exists s1 s2,
    qwtBezierScales (mkPoint 0 0) (mkPoint 1 0) (mkPoint 2 0) (mkPoint 9 0)
      = ret (s1, s2) /\ 0 < s1 <= 1 / 6 /\ 0 < s2 <= 1 / 6.
Proof.
  destruct (qwtBezierScales_bounded (mkPoint 0 0) (mkPoint 1 0) (mkPoint 2 0) (mkPoint 9 0))
    as (s1 & s2 & E & B1 & B2 & N1 & N2 & _); [apply level_neq; lra |].
  exists s1, s2. split; [exact E |].
  specialize (N1 (level_neq 0 1 ltac:(lra))).
  specialize (N2 (level_neq 2 9 ltac:(lra))).
  lra.
Defined.

(** The interval, from the scales. *)
Lemma interval_of_scales (p0 p1 p2 p3 : QPointF) (s1 s2 : R) :
  qwtBezierScales p0 p1 p2 p3 = ret (s1, s2) ->
  qwtBezierInterval p0 p1 p2 p3 =
    ret (mkInterval (3 * (py p1 + (py p2 - py p0) * s1))
                    (3 * (py p2 + (py p1 - py p3) * s2))).
Proof. intros E; unfold qwtBezierInterval; rewrite E; reflexivity. Qed.

Lemma Rabs_scaled (u s d h : R) :
  Rabs u <= d -> 0 < s -> s * d <= h -> Rabs (u * s) <= h.
Proof.
  intros U S H. rewrite Rabs_mult, (Rabs_pos_eq s) by lra.
  apply Rle_trans with (d * s); [apply Rmult_le_compat_r; lra | lra].
Qed.

(** The control ordinates stay near the ends of the segment. *)
Lemma interval_near_ends (p0 p1 p2 p3 : QPointF) :
  p1 <> p2 ->
  exists iv,
    qwtBezierInterval p0 p1 p2 p3 = ret iv /\
    Rabs (minValue iv / 3 - py p1) <= qwtLineLength p1 p2 / 2 /\
    Rabs (maxValue iv / 3 - py p2) <= qwtLineLength p1 p2 / 2.
Proof.
  intros N.
  destruct (scales_bounds p0 p1 p2 p3 (qwtLineLength_pos p1 p2 N))
    as (s1 & s2 & E & B1 & B2 & _ & _ & H1 & H2).
  rewrite (interval_of_scales _ _ _ _ _ _ E).
  eexists; split; [reflexivity |]. cbn [minValue maxValue].
  split.
  - replace (3 * (py p1 + (py p2 - py p0) * s1) / 3 - py p1)
      with ((py p2 - py p0) * s1) by field.
    apply Rabs_scaled with (qwtLineLength p0 p2); [| lra | lra].
    rewrite qwtLineLength_sym. apply dy_le_length.
  - replace (3 * (py p2 + (py p1 - py p3) * s2) / 3 - py p2)
      with ((py p1 - py p3) * s2) by field.
    apply Rabs_scaled with (qwtLineLength p1 p3); [| lra | lra].
    apply dy_le_length.
Qed.

(** X4.  For a segment with distinct end points the two control ordinates
    of the interval, [minValue / 3] and [maxValue / 3], lie within half the
    length of the segment of the ordinates of [p1] and [p2]. *)
Theorem qwtBezierInterval_near_ends (p0 p1 p2 p3 : QPointF) :
  p1 <> p2 ->
  exists iv,
    qwtBezierInterval p0 p1 p2 p3 = ret iv /\
    Rabs (minValue iv / 3 - py p1) <= qwtLineLength p1 p2 / 2 /\
    Rabs (maxValue iv / 3 - py p2) <= qwtLineLength p1 p2 / 2.
Proof. exact (interval_near_ends p0 p1 p2 p3). Qed.

(** X4, witness: the segment from (1,2) to (2,0) of a zigzag. *)
Lemma qwtBezierInterval_near_ends_witness :
  exists iv,
    qwtBezierInterval (mkPoint 0 0) (mkPoint 1 2) (mkPoint 2 0) (mkPoint 3 2) = ret iv /\
    Rabs (minValue iv / 3 - 2) <= qwtLineLength (mkPoint 1 2) (mkPoint 2 0) / 2 /\
    Rabs (maxValue iv / 3 - 0) <= qwtLineLength (mkPoint 1 2) (mkPoint 2 0) / 2.
Proof.
  apply (qwtBezierInterval_near_ends (mkPoint 0 0) (mkPoint 1 2) (mkPoint 2 0) (mkPoint 3 2)).
  intros K; apply (f_equal px) in K; simpl in K; lra.
Defined.

(** When the interval construction fails. *)
Lemma interval_failure (p0 p1 p2 p3 : QPointF) :
  (forall e, qwtBezierInterval p0 p1 p2 p3 = fail e -> e = DivByZero) /\
  (qwtBezierInterval p0 p1 p2 p3 = fail DivByZero <->
   p1 = p2 /\ (p0 = p2 \/ p1 = p3)).
Proof.
  assert (forall a b, qwtLineLength a b <> 0 -> a <> b) as Pos.
  { intros a b Nz ->. apply Nz, qwtLineLength_same. }
  assert (forall a b, qwtLineLength a b = 0 -> a = b) as Zero.
  { intros a b; apply qwtLineLength_zero. }
  destruct (Req_dec_T (qwtLineLength p1 p2) 0) as [Z12 | N12].
  - (* the segment is a point: both conditions fail *)
    pose proof (Zero _ _ Z12) as E12.
    pose proof (qwtLineLength_nonneg p0 p2) as P02.
    pose proof (qwtLineLength_nonneg p1 p3) as P13.
    assert (qwtBezierScales p0 p1 p2 p3 =
            (s1 <- 0.5 * qwtLineLength p1 p2 /? qwtLineLength p0 p2 ;;
             s2 <- 0.5 * qwtLineLength p1 p2 /? qwtLineLength p1 p3 ;;
             ret (s1, s2))) as E.
    { apply scales_both_false; rewrite Z12; lra. }
    unfold qwtBezierInterval. rewrite E.
    destruct (Req_dec_T (qwtLineLength p0 p2) 0) as [Z02 | N02].
    + rewrite Z02, Rdiv_chk_zero, !bind_fail.
      split; [intros e K; inversion K; reflexivity |].
      split; [intros _ | reflexivity].
      split; [exact E12 | left; apply Zero; exact Z02].
    + rewrite (Rdiv_chk_ok _ _ N02), bind_ret.
      destruct (Req_dec_T (qwtLineLength p1 p3) 0) as [Z13 | N13].
      * rewrite Z13, Rdiv_chk_zero, !bind_fail.
        split; [intros e K; inversion K; reflexivity |].
        split; [intros _ | reflexivity].
        split; [exact E12 | right; apply Zero; exact Z13].
      * rewrite (Rdiv_chk_ok _ _ N13), !bind_ret.
        split; [intros e K; discriminate K |].
        split; [intros K; discriminate K |].
        intros (_ & [K | K]); exfalso.
        -- apply (Pos _ _ N02 K).
        -- apply (Pos _ _ N13 K).
  - (* a proper segment *)
    pose proof (qwtLineLength_nonneg p1 p2) as P12.
    destruct (interval_defined p0 p1 p2 p3 ltac:(lra)) as [iv E].
    rewrite E.
    split; [intros e K; discriminate K |].
    split; [intros K; discriminate K |].
    intros (K & _). exfalso. apply (Pos _ _ N12 K).
Qed.

(** X5.  [qwtBezierInterval] fails only by a division by zero, and exactly
    when the segment is a single point that also coincides with the left
    neighbour [p0] or the right neighbour [p3]. *)
Theorem qwtBezierInterval_failure (p0 p1 p2 p3 : QPointF) :
  (forall e, qwtBezierInterval p0 p1 p2 p3 = fail e -> e = DivByZero) /\
  (qwtBezierInterval p0 p1 p2 p3 = fail DivByZero <->
   p1 = p2 /\ (p0 = p2 \/ p1 = p3)).
Proof. exact (interval_failure p0 p1 p2 p3). Qed.

(** X5, witness: a segment shrunk to the point (1,0), which is also its
    right neighbour. *)
Lemma qwtBezierInterval_failure_witness :
  qwtBezierInterval (mkPoint 0 0) (mkPoint 1 0) (mkPoint 1 0) (mkPoint 1 0)
  = fail DivByZero.
Proof.
  apply (qwtBezierInterval_failure (mkPoint 0 0) (mkPoint 1 0) (mkPoint 1 0) (mkPoint 1 0)).
  split; [reflexivity | right; reflexivity].
Defined.

(** ** The cubic of one segment *)

(** The evaluator in Bernstein form and at the two ends. *)
Lemma value_bezier_form (p1 p2 : QPointF) (interval : QwtInterval) :
  px p1 <> px p2 ->
  qwtBezierValue p1 p2 interval (px p1) = ret (py p1) /\
  qwtBezierValue p1 p2 interval (px p2) = ret (py p2) /\
  forall x,
    let t := (x - px p1) / (px p2 - px p1) in
    qwtBezierValue p1 p2 interval x =
      ret ((1 - t) ^ 3 * py p1
           + 3 * t * (1 - t) ^ 2 * (minValue interval / 3)
           + 3 * t ^ 2 * (1 - t) * (maxValue interval / 3)
           + t ^ 3 * py p2).
Proof.
  intros N. repeat split; try intros x t;
    rewrite qwtBezierValue_defined by exact N;
    unfold ret; apply f_equal; cbv zeta.
  - replace ((px p1 - px p1) / (px p2 - px p1)) with 0 by (field; lra). ring.
  - replace ((px p2 - px p1) / (px p2 - px p1)) with 1 by (field; lra). ring.
  - fold t. field.
Qed.

(** X6.  [qwtBezierValue] is the cubic Bezier polynomial in the normalised
    parameter, with the control ordinates [p1.y], [minValue / 3],
    [maxValue / 3] and [p2.y]; at [p1.x] it returns [p1.y] and at [p2.x] it
    returns [p2.y], whatever the interval. *)
Theorem qwtBezierValue_bezier (p1 p2 : QPointF) (interval : QwtInterval) :
  px p1 <> px p2 ->
  qwtBezierValue p1 p2 interval (px p1) = ret (py p1) /\
  qwtBezierValue p1 p2 interval (px p2) = ret (py p2) /\
  forall x,
    let t := (x - px p1) / (px p2 - px p1) in
    qwtBezierValue p1 p2 interval x =
      ret ((1 - t) ^ 3 * py p1
           + 3 * t * (1 - t) ^ 2 * (minValue interval / 3)
           + 3 * t ^ 2 * (1 - t) * (maxValue interval / 3)
           + t ^ 3 * py p2).
Proof. exact (value_bezier_form p1 p2 interval). Qed.

(** X6, witness: the segment from (0,1) to (2,5) with the interval (6,9). *)
Lemma qwtBezierValue_bezier_witness :
  qwtBezierValue (mkPoint 0 1) (mkPoint 2 5) (mkInterval 6 9) 0 = ret 1 /\
  qwtBezierValue (mkPoint 0 1) (mkPoint 2 5) (mkInterval 6 9) 2 = ret 5.
Proof.
  destruct (qwtBezierValue_bezier (mkPoint 0 1) (mkPoint 2 5) (mkInterval 6 9))
    as (A & B & _); [simpl; lra |].
  split; [exact A | exact B].
Defined.

(** A cubic in Bernstein form with non-negative coefficients is
    non-negative on the unit interval. *)
Lemma bernstein_nonneg (t u a b c d : R) :
  0 <= t -> 0 <= u -> 0 <= a -> 0 <= b -> 0 <= c -> 0 <= d ->
  0 <= ((u * a + t * b) * u + t * t * c) * u + t * t * t * d.
Proof.
  intros T U A B C D.
  repeat (apply Rplus_le_le_0_compat || apply Rmult_le_pos); assumption.
Qed.

(** The evaluator between bounds of its control ordinates. *)
Lemma value_enclosed (p1 p2 : QPointF) (interval : QwtInterval)
  (x lo hi : R) :
  px p1 < px p2 -> px p1 <= x <= px p2 ->
  lo <= py p1 <= hi -> lo <= minValue interval / 3 <= hi ->
  lo <= maxValue interval / 3 <= hi -> lo <= py p2 <= hi ->
  exists y, qwtBezierValue p1 p2 interval x = ret y /\ lo <= y <= hi.
Proof.
  intros Lt Hx H1 Hmin Hmax H2.
  rewrite qwtBezierValue_defined by lra.
  eexists; split; [reflexivity |]. cbv zeta.
  set (t := (x - px p1) / (px p2 - px p1)).
  assert (0 <= t) as T0.
  { unfold t, Rdiv. apply Rmult_le_pos; [lra | left; apply Rinv_0_lt_compat; lra]. }
  assert (t <= 1) as T1.
  { assert (t * (px p2 - px p1) = x - px p1) as E by (unfold t; field; lra).
    destruct (Rle_lt_dec t 1) as [L | G]; [exact L | exfalso].
    assert (1 * (px p2 - px p1) < t * (px p2 - px p1))
      by (apply Rmult_lt_compat_r; lra).
    lra. }
  pose proof (bernstein_nonneg t (1 - t) (py p1 - lo) (minValue interval - 3 * lo)
                (maxValue interval - 3 * lo) (py p2 - lo)
                T0 ltac:(lra) ltac:(lra) ltac:(lra) ltac:(lra) ltac:(lra)) as Low.
  pose proof (bernstein_nonneg t (1 - t) (hi - py p1) (3 * hi - minValue interval)
                (3 * hi - maxValue interval) (hi - py p2)
                T0 ltac:(lra) ltac:(lra) ltac:(lra) ltac:(lra) ltac:(lra)) as High.
  match goal with |- lo <= ?A <= hi =>
    assert (A - lo =
            (((1 - t) * (py p1 - lo) + t * (minValue interval - 3 * lo)) * (1 - t)
             + t * t * (maxValue interval - 3 * lo)) * (1 - t)
            + t * t * t * (py p2 - lo)) as EL by ring;
    assert (hi - A =
            (((1 - t) * (hi - py p1) + t * (3 * hi - minValue interval)) * (1 - t)
             + t * t * (3 * hi - maxValue interval)) * (1 - t)
            + t * t * t * (hi - py p2)) as EH by ring
  end.
  lra.
Qed.

(** X7.  Inside the segment the value of [qwtBezierValue] stays between any
    two bounds that enclose its four control ordinates [p1.y],
    [minValue / 3], [maxValue / 3] and [p2.y]. *)
Theorem qwtBezierValue_enclosed (p1 p2 : QPointF) (interval : QwtInterval)
  (x lo hi : R) :
  px p1 < px p2 -> px p1 <= x <= px p2 ->
  lo <= py p1 <= hi -> lo <= minValue interval / 3 <= hi ->
  lo <= maxValue interval / 3 <= hi -> lo <= py p2 <= hi ->
  exists y, qwtBezierValue p1 p2 interval x = ret y /\ lo <= y <= hi.
Proof. exact (value_enclosed p1 p2 interval x lo hi). Qed.

(** X7, witness: the segment from (0,0) to (2,4) with the control ordinates
    1 and 2, sampled in the middle. *)
Lemma qwtBezierValue_enclosed_witness :
  exists y,
    qwtBezierValue (mkPoint 0 0) (mkPoint 2 4) (mkInterval 3 6) 1 = ret y /\
    0 <= y <= 4.
Proof.
  apply (qwtBezierValue_enclosed (mkPoint 0 0) (mkPoint 2 4) (mkInterval 3 6) 1 0 4);
    simpl; lra.
Defined.

(** ** The samples of [qwtFitBezier], one by one *)

Lemma bind_inv {A B : Type} (r : result A) (k : A -> result B) (b : B) :
  bind r k = ret b -> exists a, r = ret a /\ k a = ret b.
Proof.
  destruct r as [e | a]; simpl; intros E.
  - discriminate E.
  - exists a; split; [reflexivity | exact E].
Qed.

(** What a successful segment search tells about its result. *)
Lemma qwtSkip_ret_inv (p : QPolygonF) (x : R) (fuel : nat) : forall j0 j : Z,
  qwtSkip fuel p x j0 = ret j ->
  (j0 <= j)%Z /\ (0 <= j0 + 1)%Z /\ (j + 1 < size p)%Z /\
  (forall k, (j0 < k <= j)%Z -> px (pointAt p k) < x) /\
  ~ px (pointAt p (j + 1)) < x.
Proof.
  induction fuel as [| fuel IH]; intros j0 j E; [discriminate E |].
  simpl in E. apply bind_inv in E. destruct E as (q & Eq & E).
  apply at_ret_inv in Eq. destruct Eq as [Bq ->].
  destruct (Rgt_bool x (px (pointAt p (j0 + 1)))) eqn:G.
  - apply Rlt_bool_spec in G.
    destruct (IH _ _ E) as (L & _ & U & Passed & Stop).
    repeat split; try lia; try assumption.
    intros k Hk. destruct (Z.eq_dec k (j0 + 1)) as [-> | Nk];
      [exact G | apply Passed; lia].
  - injection E as <-.
    repeat split; try lia.
    intros C. apply Rlt_bool_spec in C. unfold Rgt_bool in G. congruence.
Qed.

(** What a successful sample of the naive variant consists of. *)
Lemma naiveSample_inv (p : QPolygonF) (x1 delta : R) (i : Z) (pt : QPointF) :
  naiveSample p x1 delta i = ret pt ->
  exists j iv y,
    (0 <= j)%Z /\ (j + 1 < size p)%Z /\
    (forall k, (0 < k <= j)%Z -> px (pointAt p k) < x1 + IZR i * delta) /\
    ~ px (pointAt p (j + 1)) < x1 + IZR i * delta /\
    segmentInterval p j = ret iv /\
    qwtBezierValue (pointAt p j) (pointAt p (j + 1)) iv (x1 + IZR i * delta) = ret y /\
    pt = mkPoint (x1 + IZR i * delta) y.
Proof.
  unfold naiveSample, enclosingSegment. intros E.
  apply bind_inv in E. destruct E as (j & Ej & E).
  apply bind_inv in E. destruct E as (iv & Eiv & E).
  apply bind_inv in E. destruct E as (a & Ea & E).
  apply bind_inv in E. destruct E as (b & Eb & E).
  apply bind_inv in E. destruct E as (y & Ey & E).
  apply qwtSkip_ret_inv in Ej. destruct Ej as (L & _ & U & Passed & Stop).
  apply at_ret_inv in Ea. destruct Ea as [_ ->].
  apply at_ret_inv in Eb. destruct Eb as [_ ->].
  exists j, iv, y. repeat split; try assumption; try lia.
  injection E as <-. reflexivity.
Qed.

(** The points of the naive loop are its samples. *)
Lemma naiveLoop_nth (p : QPolygonF) (x1 delta : R) (rounds : nat) :
  forall (i : Z) (pts : QPolygonF),
  naiveLoop rounds p x1 delta i = ret pts ->
  length pts = rounds /\
  forall k, (0 <= k < Z.of_nat rounds)%Z ->
    naiveSample p x1 delta (i + k) = ret (pointAt pts k).
Proof.
  induction rounds as [| rounds IH]; intros i pts E.
  - injection E as <-. split; [reflexivity | intros k Hk; lia].
  - cbn [naiveLoop] in E.
    apply bind_inv in E. destruct E as (pt & Ept & E).
    apply bind_inv in E. destruct E as (rest & Erest & E).
    injection E as <-.
    destruct (IH _ _ Erest) as [Len Nth].
    split; [simpl; congruence |].
    intros k Hk. destruct (Z.eq_dec k 0) as [-> | Nk].
    + replace (i + 0)%Z with i by lia. exact Ept.
    + rewrite pointAt_cons by lia.
      replace (i + k)%Z with (i + 1 + (k - 1))%Z by lia.
      apply Nth; lia.
Qed.

(** The interval of a segment is built on the two ends of that segment. *)
Lemma segmentInterval_shape (p : QPolygonF) (j : Z) :
  (3 <= size p)%Z -> (0 <= j)%Z -> (j + 1 < size p)%Z ->
  exists a d,
    segmentInterval p j = qwtBezierInterval a (pointAt p j) (pointAt p (j + 1)) d.
Proof.
  intros Hs L U. unfold segmentInterval.
  destruct (Z.eqb_spec j 0) as [-> | N].
  - rewrite !at_in by lia. rewrite !bind_ret.
    exists (pointAt p 0), (pointAt p 2). reflexivity.
  - rewrite !at_in by lia. rewrite !bind_ret.
    exists (pointAt p (j - 1)), (pointAt p (Z.min (size p - 1) (j + 2))). reflexivity.
Qed.

(** Every output point of [qwtFitBezier]: its abscissa, the segment it was
    taken from and the cubic that gave its ordinate. *)
Lemma qwtFitBezier_points (p : QPolygonF) (m : Z) :
  (3 <= size p)%Z -> increasingX p -> (2 <= m)%Z ->
  exists out,
    qwtFitBezier p m = ret out /\ size out = m /\
    forall i, (0 <= i < m)%Z ->
    exists j iv y,
      let x := px (pointAt p 0)
               + IZR i * ((px (pointAt p (size p - 1)) - px (pointAt p 0)) / IZR (m - 1)) in
      (0 <= j)%Z /\ (j + 1 < size p)%Z /\
      px (pointAt p j) <= x <= px (pointAt p (j + 1)) /\
      ((0 < j)%Z -> px (pointAt p j) < x) /\
      segmentInterval p j = ret iv /\
      qwtBezierValue (pointAt p j) (pointAt p (j + 1)) iv x = ret y /\
      pointAt out i = mkPoint x y.
Proof.
  intros Hs Hi Hm.
  destruct (qwtFitBezier_sound p m Hs Hi Hm) as (out & E & En & Len & _).
  exists out. split; [exact E | split; [exact Len |]].
  unfold qwtFitBezier_naive in En.
  destruct (Z.leb_spec (size p) 2) as [C | _]; [lia |].
  rewrite !at_in in En by lia. rewrite !bind_ret in En.
  rewrite Rdiv_chk_ok in En by (apply not_0_IZR; lia). rewrite bind_ret in En.
  destruct (naiveLoop_nth _ _ _ _ _ _ En) as [_ Nth].
  intros i Hrange.
  specialize (Nth i ltac:(lia)). replace (0 + i)%Z with i in Nth by lia.
  destruct (naiveSample_inv _ _ _ _ _ Nth)
    as (j & iv & y & L & U & Passed & Stop & Eiv & Ey & Ept).
  exists j, iv, y. cbv zeta.
  pose proof (delta_pos p m Hs Hi Hm) as D. cbv zeta in D.
  pose proof (IZR_le _ _ (proj1 Hrange)) as Pi.
  repeat split; try assumption.
  - destruct (Z.eq_dec j 0) as [-> | Nj].
    + assert (0 <= IZR i * ((px (pointAt p (size p - 1)) - px (pointAt p 0)) / IZR (m - 1)))
        by (apply Rmult_le_pos; lra).
      lra.
    + apply Rlt_le, Passed; lia.
  - lra.
  - intros Pj. apply Passed; lia.
Qed.

(** ** What [qwtFitBezier] returns *)



Lemma ret_inj {A : Type} (a b : A) : ret a = ret b -> a = b.
Proof. intros E; injection E; auto. Qed.

Lemma Rabs_bound (a b : R) : Rabs a <= b -> - b <= a <= b.
Proof.
  intros H. pose proof (Rle_abs a) as U. pose proof (Rle_abs (- a)) as L.
  rewrite Rabs_Ropp in L. lra.
Qed.

Lemma QPointF_eta (q : QPointF) : mkPoint (px q) (py q) = q.
Proof. destruct q; reflexivity. Qed.

(** Samples that meet an input abscissa. *)
Lemma fit_interpolates (p : QPolygonF) (m : Z) :
  (3 <= size p)%Z -> increasingX p -> (2 <= m)%Z ->
  exists out,
    qwtFitBezier p m = ret out /\
    pointAt out 0 = pointAt p 0 /\
    pointAt out (m - 1) = pointAt p (size p - 1) /\
    forall i k, (0 <= i < m)%Z -> (0 <= k < size p)%Z ->
      px (pointAt out i) = px (pointAt p k) -> pointAt out i = pointAt p k.
Proof.
  intros Hs Hi Hm.
  destruct (qwtFitBezier_points p m Hs Hi Hm) as (out & E & Len & Pts).
  assert (forall i k, (0 <= i < m)%Z -> (0 <= k < size p)%Z ->
            px (pointAt out i) = px (pointAt p k) -> pointAt out i = pointAt p k) as Through.
  { intros i k Hrange Hk Hx.
    destruct (Pts i Hrange) as (j & iv & y & L & U & Hin & Hleft & _ & Ey & Ept).
    cbv zeta in Hin, Hleft, Ey, Ept.
    remember (px (pointAt p 0)
              + IZR i * ((px (pointAt p (size p - 1)) - px (pointAt p 0)) / IZR (m - 1)))
      as x eqn:Ex.
    rewrite Ept in Hx |- *. cbn [px] in Hx.
    assert (px (pointAt p j) <> px (pointAt p (j + 1))) as Nseg.
    { pose proof (increasingX_step p Hi j L U). lra. }
    destruct (value_bezier_form (pointAt p j) (pointAt p (j + 1)) iv Nseg)
      as (Vleft & Vright & _).
    destruct (Z_lt_dec k j) as [Below | NotBelow].
    { pose proof (increasingX_lt p Hi k j ltac:(lia) Below ltac:(lia)). lra. }
    destruct (Z_lt_dec (j + 1) k) as [Above | NotAbove].
    { pose proof (increasingX_lt p Hi (j + 1) k ltac:(lia) Above ltac:(lia)). lra. }
    destruct (Z.eq_dec k j) as [-> | Nk].
    - destruct (Z_lt_dec 0 j) as [Pj | Zj]; [specialize (Hleft Pj); lra |].
      rewrite Hx, Vleft in Ey. injection Ey as <-.
      rewrite Hx. apply QPointF_eta.
    - replace k with (j + 1)%Z in * by lia.
      rewrite Hx, Vright in Ey. injection Ey as <-.
      rewrite Hx. apply QPointF_eta. }
  exists out. split; [exact E |].
  destruct (qwtFitBezier_sound p m Hs Hi Hm) as (out' & E' & _ & _ & Xs).
  assert (out' = out) as -> by (apply ret_inj; rewrite <- E, <- E'; reflexivity).
  cbv zeta in Xs.
  split; [| split; [| exact Through]].
  - apply Through; [lia | lia |].
    rewrite Xs by lia. apply (X_first p m).
  - apply Through; [lia | lia |].
    rewrite Xs by lia. apply (X_last p m Hm).
Qed.





(** ** Inputs outside the precondition *)

(** A search that finds every remaining point below [x] runs off the end of
    the array. *)
Lemma qwtSkip_overrun (p : QPolygonF) (x : R) (fuel : nat) : forall j : Z,
  (0 <= j + 1 <= size p)%Z ->
  (forall k, (j < k < size p)%Z -> px (pointAt p k) < x) ->
  (size p - j <= Z.of_nat fuel)%Z ->
  qwtSkip fuel p x j = fail (OutOfBounds (size p)).
Proof.
  induction fuel as [| fuel IH]; intros j B Below F; [lia |].
  simpl. destruct (Z.eq_dec (j + 1) (size p)) as [End | Inside].
  - rewrite at_out by lia. rewrite End. reflexivity.
  - rewrite at_in by lia. rewrite bind_ret.
    unfold Rgt_bool. rewrite Rlt_bool_true by (apply Below; lia).
    apply IH; [lia | intros k Hk; apply Below; lia | lia].
Qed.

(** X11.  When the first abscissa is above all the others (a polygon
    running from right to left, say), the first sample already sends the
    segment search past the last point: [qwtFitBezier] reads [p[n]], one
    element beyond the array. *)
Theorem qwtFitBezier_overrun (p : QPolygonF) (m : Z) :
  (3 <= size p)%Z ->
  (forall k, (1 <= k < size p)%Z -> px (pointAt p k) < px (pointAt p 0)) ->
  (2 <= m)%Z ->
  qwtFitBezier p m = fail (OutOfBounds (size p)).
Proof.
  intros Hs Below Hm. unfold qwtFitBezier.
  destruct (Z.leb_spec (size p) 2) as [C | _]; [lia |].
  rewrite !at_in by lia. rewrite !bind_ret.
  rewrite Rdiv_chk_ok by (apply not_0_IZR; lia). rewrite !bind_ret.
  destruct (interval_defined (pointAt p 0) (pointAt p 0) (pointAt p 1) (pointAt p 2))
    as [iv Eiv].
  { apply qwtLineLength_pos_x. pose proof (Below 1%Z ltac:(lia)). lra. }
  rewrite Eiv, bind_ret.
  replace (Z.to_nat m) with (S (Z.to_nat (m - 1))) by lia.
  cbn [qwtFitLoop]. unfold qwtFitStep at 1. cbn [cursor intv fittedPoints].
  rewrite (at_in p (0 + 1)) by lia. rewrite bind_ret.
  unfold Rgt_bool at 1.
  rewrite Rlt_bool_true by (simpl; pose proof (Below 1%Z ltac:(lia)); lra).
  rewrite qwtSkip_overrun.
  - reflexivity.
  - lia.
  - intros k Hk. simpl. pose proof (Below k ltac:(lia)). lra.
  - unfold size; lia.
Qed.

(** X11, witness: the polygon (2,0), (1,0), (0,0), two samples. *)
Lemma qwtFitBezier_overrun_witness :
  qwtFitBezier [mkPoint 2 0; mkPoint 1 0; mkPoint 0 0] 2 = fail (OutOfBounds 3).
Proof.
  apply (qwtFitBezier_overrun [mkPoint 2 0; mkPoint 1 0; mkPoint 0 0] 2).
  - unfold size; simpl; lia.
  - intros k Hk. unfold size in Hk; simpl in Hk.
    assert (k = 1 \/ k = 2)%Z as [-> | ->] by lia; unfold pointAt; simpl; lra.
  - lia.
Defined.

Lemma Rdiv_chk_null (a b : R) : b = 0 -> a /? b = fail DivByZero.
Proof. intros ->; apply Rdiv_chk_zero. Qed.

(** One sample: the spacing divides by [numPoints - 1 = 0]. *)
Lemma fit_count_one (p : QPolygonF) :
  (3 <= size p)%Z -> qwtFitBezier p 1 = fail DivByZero.
Proof.
  intros Hs. unfold qwtFitBezier.
  destruct (Z.leb_spec (size p) 2) as [C | _]; [lia |].
  rewrite !at_in by lia. rewrite !bind_ret.
  change (IZR (1 - 1)) with 0. rewrite Rdiv_chk_zero. reflexivity.
Qed.



(** A first segment without width. *)
Lemma fit_first_abscissa_twice (p : QPolygonF) (m : Z) :
  (3 <= size p)%Z -> px (pointAt p 0) = px (pointAt p 1) -> (1 <= m)%Z ->
  qwtFitBezier p m = fail DivByZero.
Proof.
  intros Hs Same Hm.
  destruct (Z.eq_dec m 1) as [-> | Nm];
    [apply fit_count_one; exact Hs |].
  unfold qwtFitBezier.
  destruct (Z.leb_spec (size p) 2) as [C | _]; [lia |].
  rewrite !at_in by lia. rewrite !bind_ret.
  rewrite Rdiv_chk_ok by (apply not_0_IZR; lia). rewrite !bind_ret.
  destruct (qwtBezierInterval (pointAt p 0) (pointAt p 0) (pointAt p 1) (pointAt p 2))
    as [e | iv] eqn:Eiv.
  - apply (interval_failure _ _ _ _) in Eiv. subst e. reflexivity.
  - change (inr iv) with (ret iv). rewrite bind_ret.
    replace (Z.to_nat m) with (S (Z.to_nat (m - 1))) by lia.
    cbn [qwtFitLoop]. unfold qwtFitStep at 1. cbn [cursor intv fittedPoints].
    rewrite (at_in p (0 + 1)) by lia. rewrite bind_ret.
    unfold Rgt_bool at 1.
    rewrite Rlt_bool_false by (simpl; lra).
    rewrite bind_ret. cbn [fst snd].
    rewrite (at_in p 0), (at_in p (0 + 1)) by lia. rewrite !bind_ret.
    unfold qwtBezierValue.
    rewrite Rdiv_chk_null by (simpl; lra).
    reflexivity.
Qed.

(** X13.  When the first two points share their abscissa (and there is at
    least one sample), [qwtFitBezier] divides by zero: at the latest in the
    cubic of the first sample, whose segment has no width. *)
Theorem qwtFitBezier_first_abscissa_twice (p : QPolygonF) (m : Z) :
  (3 <= size p)%Z -> px (pointAt p 0) = px (pointAt p 1) -> (1 <= m)%Z ->
  qwtFitBezier p m = fail DivByZero.
Proof. exact (fit_first_abscissa_twice p m). Qed.

(** X13, witness: a polygon that starts with a vertical step. *)
Lemma qwtFitBezier_first_abscissa_twice_witness :
  qwtFitBezier [mkPoint 0 0; mkPoint 0 1; mkPoint 1 1] 5 = fail DivByZero.
Proof.
  apply (qwtFitBezier_first_abscissa_twice [mkPoint 0 0; mkPoint 0 1; mkPoint 1 1] 5).
  - unfold size; simpl; lia.
  - reflexivity.
  - lia.
Defined.

(** ** The two fitter classes *)

(** The sampling loop of [fitSpline], point by point. *)
Lemma sampleSpline_nth (Sp : Type) (ops : BezierSpline Sp) (s : Sp) (x1 delta : R)
  (rounds : nat) : forall i : Z,
  length (Fitter.sampleSpline rounds s x1 delta i) = rounds /\
  forall k, (0 <= k < Z.of_nat rounds)%Z ->
    pointAt (Fitter.sampleSpline rounds s x1 delta i) k =
      mkPoint (x1 + IZR (i + k) * delta) (value s (x1 + IZR (i + k) * delta)).
Proof.
  induction rounds as [| rounds IH]; intros i.
  - split; [reflexivity | intros k Hk; lia].
  - destruct (IH (i + 1)%Z) as [Len Nth]. cbn [Fitter.sampleSpline].
    split; [simpl; congruence |].
    intros k Hk. destruct (Z.eq_dec k 0) as [-> | Nk].
    + replace (i + 0)%Z with i by lia. reflexivity.
    + rewrite pointAt_cons by lia. rewrite Nth by lia.
      replace (i + 1 + (k - 1))%Z with (i + k)%Z by lia. reflexivity.
Qed.

(** X14.  The sampling path of the object-owned fitter: for at least three
    points that the spline accepts, and a spline size of at least two,
    [fitCurve] returns [splineSize] points, evenly spaced from the first to
    the last input abscissa, each with the ordinate the loaded spline gives
    at its abscissa; the spline is left reset and the spline size as it
    was. *)
Theorem fitCurve_samples_spline (Sp : Type) (ops : BezierSpline Sp)
  (points : QPolygonF) (d : Fitter.PrivateData Sp) :
  (3 <= size points)%Z ->
  isValid (setPoints points (Fitter.spline d)) = true ->
  (2 <= Fitter.splineSize d)%Z ->
  let s := setPoints points (Fitter.spline d) in
  let N := Fitter.splineSize d in
  let x1 := px (pointAt points 0) in
  let x2 := px (pointAt points (size points - 1)) in
  exists fitted,
    Fitter.fitCurve points d = ret (fitted, Fitter.mkData (reset s) N) /\
    size fitted = N /\
    (forall i, (0 <= i < N)%Z ->
       pointAt fitted i =
         mkPoint (x1 + IZR i * ((x2 - x1) / IZR (N - 1)))
                 (value s (x1 + IZR i * ((x2 - x1) / IZR (N - 1))))) /\
    px (pointAt fitted 0) = x1 /\ px (pointAt fitted (N - 1)) = x2.
Proof.
  intros Hs V HN s N x1 x2.
  assert (IZR (N - 1) <> 0) as Nz by (apply not_0_IZR; unfold N; lia).
  unfold Fitter.fitCurve, Fitter.fitSpline.
  destruct (Z.leb_spec (size points) 2) as [C | _]; [lia |].
  cbn [Fitter.spline Fitter.splineSize]. fold s N. unfold s at 1. rewrite V.
  cbn [negb]. rewrite !at_in by lia. rewrite !bind_ret.
  fold x1 x2. rewrite Rdiv_chk_ok by exact Nz. rewrite bind_ret.
  destruct (sampleSpline_nth Sp ops s x1 ((x2 - x1) / IZR (N - 1)) (Z.to_nat N) 0)
    as [Len Nth].
  eexists; split; [reflexivity |].
  assert (forall i, (0 <= i < N)%Z ->
            pointAt (Fitter.sampleSpline (Z.to_nat N) s x1 ((x2 - x1) / IZR (N - 1)) 0) i =
              mkPoint (x1 + IZR i * ((x2 - x1) / IZR (N - 1)))
                      (value s (x1 + IZR i * ((x2 - x1) / IZR (N - 1))))) as Pts.
  { intros i Hi. rewrite Nth by lia. replace (0 + i)%Z with i by lia. reflexivity. }
  split; [unfold size; rewrite Len; unfold N in *; lia |].
  split; [exact Pts |].
  split.
  - rewrite Pts by (unfold N in *; lia). simpl. lra.
  - rewrite Pts by (unfold N in *; lia). cbn [px]. field. exact Nz.
Qed.

(** X14, witness: the stored spline on the zigzag, ten samples, each with
    the first ordinate. *)
Lemma fitCurve_samples_spline_witness :
  exists fitted,
    Fitter.fitCurve zigzag5 (Fitter.newFitter 10)
      = ret (fitted, Fitter.mkData [] 10) /\
    size fitted = 10%Z /\
    px (pointAt fitted 0) = 0 /\ px (pointAt fitted 9) = 4.
Proof.
  destruct (fitCurve_samples_spline QPolygonF StoredSpline zigzag5 (Fitter.newFitter 10))
    as (fitted & E & Len & _ & First & Last).
  - unfold size; simpl; lia.
  - simpl. apply Rlt_bool_true; lra.
  - simpl; lia.
  - exists fitted. split; [exact E | split; [exact Len | split; [exact First | exact Last]]].
Defined.

(** [fitCurve] never touches the spline size. *)
Lemma fitCurve_keeps_size (Sp : Type) (ops : BezierSpline Sp)
  (points out : QPolygonF) (d d' : Fitter.PrivateData Sp) :
  Fitter.fitCurve points d = ret (out, d') ->
  Fitter.splineSize d' = Fitter.splineSize d.
Proof.
  unfold Fitter.fitCurve, Fitter.fitSpline.
  destruct (size points <=? 2)%Z.
  - intros E; injection E as _ <-; reflexivity.
  - cbn [Fitter.spline Fitter.splineSize].
    destruct (negb (isValid (setPoints points (Fitter.spline d)))).
    + intros E; injection E as _ <-; reflexivity.
    + intros E.
      apply bind_inv in E. destruct E as (a & _ & E).
      apply bind_inv in E. destruct E as (b & _ & E).
      apply bind_inv in E. destruct E as (dl & _ & E).
      injection E as _ <-; reflexivity.
Qed.

(** X15.  Through the whole interface of the object-owned fitter the spline
    size stays at 10 or more, and so [fitCurve] returns a result for every
    input, never dividing by zero and never reading outside the input, and
    leaves the spline size as it was. *)
Theorem fitCurve_total (Sp : Type) (ops : BezierSpline Sp)
  (d : Fitter.PrivateData Sp) :
  FitterReachable d ->
  (10 <= Fitter.splineSize d)%Z /\
  forall points, exists out d',
    Fitter.fitCurve points d = ret (out, d') /\
    Fitter.splineSize d' = Fitter.splineSize d.
Proof.
  intros Reach.
  assert (10 <= Fitter.splineSize d)%Z as Ten.
  { induction Reach as [n | n d _ IH | s d _ IH | s d _ IH | points out d d' _ IH E].
    - simpl; lia.
    - simpl; lia.
    - exact IH.
    - exact IH.
    - rewrite (fitCurve_keeps_size _ _ _ _ _ _ E). exact IH. }
  split; [exact Ten |]. intros points.
  assert (exists out d', Fitter.fitCurve points d = ret (out, d')) as (out & d' & E).
  { unfold Fitter.fitCurve, Fitter.fitSpline.
    destruct (Z.leb_spec (size points) 2) as [Small | Large]; [do 2 eexists; reflexivity |].
    cbn [Fitter.spline Fitter.splineSize].
    destruct (negb (isValid (setPoints points (Fitter.spline d))));
      [do 2 eexists; reflexivity |].
    rewrite !at_in by lia. rewrite !bind_ret.
    rewrite Rdiv_chk_ok by (apply not_0_IZR; lia). rewrite bind_ret.
    do 2 eexists; reflexivity. }
  exists out, d'. split; [exact E | exact (fitCurve_keeps_size _ _ _ _ _ _ E)].
Qed.

(** X15, witness: a fitter constructed with the size 3, then given a spline
    and used once. *)
Lemma fitCurve_total_witness :
  (10 <= Fitter.splineSize
           (Fitter.setSpline stacked3 (Fitter.newFitter (Sp := QPolygonF) 3)))%Z.
Proof.
  apply (fitCurve_total QPolygonF StoredSpline).
  apply reach_setSpline, reach_new.
Defined.



(** ** Abscissae that repeat *)

Lemma nondecreasingX_step (p : QPolygonF) :
  nondecreasingX p ->
  forall k, (0 <= k)%Z -> (k + 1 < size p)%Z ->
  px (pointAt p k) <= px (pointAt p (k + 1)).
Proof.
  induction p as [| a p IH]; intros Mono k L U.
  - unfold size in U; simpl in U; lia.
  - destruct p as [| b p].
    + unfold size in U; simpl in U; lia.
    + destruct Mono as [Hab Mono].
      destruct (Z.eq_dec k 0) as [-> | N].
      * exact Hab.
      * rewrite (pointAt_cons a (b :: p) k) by lia.
        rewrite (pointAt_cons a (b :: p) (k + 1)) by lia.
        replace (k + 1 - 1)%Z with (k - 1 + 1)%Z by lia.
        apply IH; [exact Mono | lia |].
        rewrite size_cons in U; lia.
Qed.

Lemma nondecreasingX_le (p : QPolygonF) :
  nondecreasingX p ->
  forall i k, (0 <= i)%Z -> (i <= k)%Z -> (k < size p)%Z ->
  px (pointAt p i) <= px (pointAt p k).
Proof.
  intros Mono i k Li Lik Uk.
  replace k with (i + Z.of_nat (Z.to_nat (k - i)))%Z in * by lia.
  induction (Z.to_nat (k - i)) as [| d IH].
  - replace (i + Z.of_nat 0)%Z with i by lia. apply Rle_refl.
  - apply Rle_trans with (px (pointAt p (i + Z.of_nat d))).
    + apply IH; lia.
    + replace (i + Z.of_nat (S d))%Z with (i + Z.of_nat d + 1)%Z by lia.
      apply nondecreasingX_step; [exact Mono | lia | lia].
Qed.

Section FitRepeated.
Variable p : QPolygonF.
Variable m : Z.
Hypothesis Hsize : (3 <= size p)%Z.
Hypothesis Hmono : nondecreasingX p.
Hypothesis Hfirst : px (pointAt p 0) < px (pointAt p 1).
Hypothesis Hm : (2 <= m)%Z.

Let n : Z := size p.
Let P (k : Z) : QPointF := pointAt p k.
Let x1 : R := px (P 0).
Let x2 : R := px (P (n - 1)).
Let delta : R := (x2 - x1) / IZR (m - 1).
Let X (i : Z) : R := x1 + IZR i * delta.

Lemma rep_delta_pos : 0 < delta.
Proof.
  unfold delta; apply Rdiv_lt_0_compat.
  - assert (px (P 1) <= x2) by (apply nondecreasingX_le; [exact Hmono | lia | fold n; lia | fold n; lia]).
    unfold x1, P in *. lra.
  - apply (IZR_lt 0); lia.
Qed.

Lemma rep_X_lt (i k : Z) : (i < k)%Z -> X i < X k.
Proof.
  intros L; unfold X.
  pose proof rep_delta_pos as D. pose proof (IZR_lt _ _ L) as I.
  assert (IZR i * delta < IZR k * delta) by (apply Rmult_lt_compat_r; assumption).
  lra.
Qed.

Lemma rep_X_last : X (m - 1) = x2.
Proof.
  unfold X, delta.
  assert (IZR (m - 1) <> 0) by (apply not_0_IZR; lia).
  field; assumption.
Qed.

Lemma rep_X_le_last (i : Z) : (i <= m - 1)%Z -> X i <= x2.
Proof.
  intros L; rewrite <- rep_X_last.
  destruct (Z.eq_dec i (m - 1)) as [-> | N]; [apply Rle_refl |].
  apply Rlt_le, rep_X_lt; lia.
Qed.

(** The segment under the cursor has a width, although others may not. *)
Lemma rep_segment_proper (j : Z) (x : R) :
  (forall k, (0 < k <= j)%Z -> px (P k) < x) ->
  (0 <= j)%Z -> ~ px (P (j + 1)) < x ->
  px (P j) <> px (P (j + 1)).
Proof.
  intros Below L Stop.
  destruct (Z.eq_dec j 0) as [-> | N].
  - unfold P; simpl (0 + 1)%Z. lra.
  - pose proof (Below j ltac:(lia)). lra.
Qed.

Lemma rep_step_sound (i : Z) (st : FitState) :
  (0 <= i <= m - 1)%Z ->
  FitInv p (X i) st ->
  exists j iv y,
    qwtFitStep p x1 delta i st =
      ret (mkFit j iv (fittedPoints st ++ [mkPoint (X i) y])) /\
    naiveSample p x1 delta i = ret (mkPoint (X i) y) /\
    FitInv p (X (i + 1)) (mkFit j iv (fittedPoints st ++ [mkPoint (X i) y])).
Proof.
  intros Hi (L & U & Hiv & Below).
  assert (X i <= px (pointAt p (size p - 1))) as Hx by (apply rep_X_le_last; lia).
  assert (X i < X (i + 1)) as Hnext by (apply rep_X_lt; lia).
  unfold qwtFitStep, naiveSample, enclosingSegment.
  change (x1 + IZR i * delta) with (X i).
  rewrite (at_in p (cursor st + 1)) by lia. rewrite bind_ret.
  destruct (Rgt_bool (X i) (px (pointAt p (cursor st + 1)))) eqn:G.
  - apply Rlt_bool_spec in G.
    destruct (qwtSkip_finds p (X i) (S (length p)) (cursor st))
      as (j & E & Lj & Uj & Passed & Stop);
      [lia | exact U | exact Hx | unfold size; lia |].
    assert (j <> cursor st) as Nj by (intros ->; contradiction).
    assert (forall k, (0 < k <= j)%Z -> px (pointAt p k) < X i) as All.
    { intros k Hk. destruct (Z_le_dec k (cursor st)); [apply Below | apply Passed]; lia. }
    assert (px (pointAt p j) <> px (pointAt p (j + 1))) as Proper
      by (apply (rep_segment_proper j (X i)); [exact All | lia | exact Stop]).
    rewrite E, bind_ret.
    rewrite (at_in p (j - 1)), (at_in p j), (at_in p (j + 1)),
      (at_in p (Z.min (size p - 1) (j + 2))) by lia.
    rewrite !bind_ret.
    destruct (interval_defined (pointAt p (j - 1)) (pointAt p j)
                (pointAt p (j + 1)) (pointAt p (Z.min (size p - 1) (j + 2))))
      as [iv Eiv]; [apply qwtLineLength_pos_x; exact Proper |].
    rewrite Eiv, !bind_ret. cbn [fst snd].
    rewrite (at_in p j), (at_in p (j + 1)) by lia. rewrite !bind_ret.
    rewrite qwtBezierValue_defined by exact Proper.
    rewrite bind_ret.
    assert (segmentInterval p j = ret iv) as Sj.
    { unfold segmentInterval. destruct (Z.eqb_spec j 0) as [Z0 | _]; [lia |].
      rewrite (at_in p (j - 1)), (at_in p j), (at_in p (j + 1)),
        (at_in p (Z.min (size p - 1) (j + 2))) by lia.
      rewrite !bind_ret. exact Eiv. }
    exists j, iv; eexists. split; [reflexivity |]. split.
    + rewrite (qwtSkip_unique p (X i) (S (length p)) 0 j);
        [| lia | exact Uj | exact All | exact Stop | unfold size in Uj; lia].
      rewrite bind_ret, Sj, bind_ret.
      rewrite (at_in p j), (at_in p (j + 1)) by lia. rewrite !bind_ret.
      rewrite qwtBezierValue_defined by exact Proper.
      reflexivity.
    + unfold FitInv; cbn [cursor intv].
      repeat split; [lia | exact Uj | exact Sj |].
      intros k Hk. apply Rlt_trans with (X i); [apply All; exact Hk | exact Hnext].
  - assert (~ px (pointAt p (cursor st + 1)) < X i) as Stop.
    { intros C. apply Rlt_bool_spec in C. unfold Rgt_bool in G. congruence. }
    assert (px (pointAt p (cursor st)) <> px (pointAt p (cursor st + 1))) as Proper
      by (apply (rep_segment_proper (cursor st) (X i)); [exact Below | lia | exact Stop]).
    rewrite bind_ret. cbn [fst snd].
    rewrite (at_in p (cursor st)), (at_in p (cursor st + 1)) by lia.
    rewrite !bind_ret.
    rewrite qwtBezierValue_defined by exact Proper.
    rewrite bind_ret.
    exists (cursor st), (intv st); eexists. split; [reflexivity |]. split.
    + rewrite (qwtSkip_unique p (X i) (S (length p)) 0 (cursor st));
        [| lia | exact U | exact Below | exact Stop | unfold size in U; lia].
      rewrite bind_ret, Hiv, bind_ret.
      rewrite (at_in p (cursor st)), (at_in p (cursor st + 1)) by lia.
      rewrite !bind_ret.
      rewrite qwtBezierValue_defined by exact Proper.
      reflexivity.
    + unfold FitInv; cbn [cursor intv].
      repeat split; [lia | exact U | exact Hiv |].
      intros k Hk. apply Rlt_trans with (X i); [apply Below; exact Hk | exact Hnext].
Qed.

Lemma rep_loop_sound (rounds : nat) : forall (i : Z) (st : FitState),
  (0 <= i)%Z -> (i + Z.of_nat rounds <= m)%Z ->
  FitInv p (X i) st ->
  exists st' pts,
    qwtFitLoop rounds p x1 delta i st = ret st' /\
    naiveLoop rounds p x1 delta i = ret pts /\
    fittedPoints st' = fittedPoints st ++ pts /\
    length pts = rounds /\
    forall k, (0 <= k < Z.of_nat rounds)%Z -> px (pointAt pts k) = X (i + k).
Proof.
  induction rounds as [| rounds IH]; intros i st Li Ui Inv.
  - exists st, []. simpl. rewrite app_nil_r.
    repeat split; try reflexivity. intros k Hk; lia.
  - destruct (rep_step_sound i st) as (j & iv & y & Estep & Enaive & Inv');
      [lia | exact Inv |].
    destruct (IH (i + 1)%Z _ ltac:(lia) ltac:(lia) Inv')
      as (st' & pts & Eloop & Enl & Efit & Len & Xs).
    exists st', (mkPoint (X i) y :: pts).
    cbn [qwtFitLoop naiveLoop]. rewrite Estep, Enaive, !bind_ret, Eloop, Enl, bind_ret.
    cbn [fittedPoints] in Efit.
    split; [reflexivity | split; [reflexivity |]].
    split; [rewrite Efit, <- app_assoc; reflexivity |].
    split; [simpl; congruence |].
    intros k Hk. destruct (Z.eq_dec k 0) as [-> | Nk].
    + unfold pointAt; simpl. f_equal; lia.
    + rewrite pointAt_cons by lia. rewrite Xs by lia. f_equal; lia.
Qed.

Lemma rep_sound :
  exists out,
    qwtFitBezier p m = ret out /\
    qwtFitBezier_naive p m = ret out /\
    size out = m /\
    forall k, (0 <= k < m)%Z -> px (pointAt out k) = X k.
Proof.
  assert (exists iv0, segmentInterval p 0 = ret iv0) as [iv0 E0].
  { unfold segmentInterval; simpl (0 =? 0)%Z; cbv iota.
    rewrite !at_in by lia. rewrite !bind_ret.
    apply interval_defined, qwtLineLength_pos_x. lra. }
  assert (FitInv p (X 0) (mkFit 0 iv0 [])) as Inv0.
  { unfold FitInv; cbn [cursor intv]. repeat split; [lia | lia | exact E0 |].
    intros k Hk; lia. }
  destruct (rep_loop_sound (Z.to_nat m) 0 _ ltac:(lia) ltac:(lia) Inv0)
    as (st & pts & Eloop & Enl & Efit & Len & Xs).
  exists pts. unfold qwtFitBezier, qwtFitBezier_naive.
  destruct (Z.leb_spec (size p) 2) as [C | _]; [lia |].
  unfold segmentInterval in E0; simpl (0 =? 0)%Z in E0; cbv iota in E0.
  rewrite (at_in p 0), (at_in p (size p - 1)) in * by lia.
  rewrite (at_in p 1), (at_in p 2) in * by lia.
  rewrite !bind_ret in *.
  rewrite Rdiv_chk_ok by (apply not_0_IZR; lia).
  rewrite !bind_ret.
  change ((px (pointAt p (size p - 1)) - px (pointAt p 0)) / IZR (m - 1)) with delta.
  change (px (pointAt p 0)) with x1.
  rewrite E0, bind_ret, Eloop, bind_ret, Enl, Efit.
  repeat split.
  - unfold size; rewrite Len; lia.
  - intros k Hk. rewrite Xs by lia. f_equal.
Qed.

End FitRepeated.



(** ** Points on a line *)

Section Line.
Variables x0 y0 slope : R.

Let L (u : R) : QPointF := linePoint x0 y0 slope u.
Let c : R := sqrt (1 + slope * slope).

Lemma line_stretch_pos : 0 < c.
Proof.
  unfold c. apply sqrt_lt_R0. pose proof (square_nonneg slope). lra.
Qed.

Lemma line_length (u v : R) : u <= v -> qwtLineLength (L u) (L v) = (v - u) * c.
Proof.
  intros Le. unfold qwtLineLength, L, linePoint, c; simpl.
  replace ((x0 + u - (x0 + v)) * (x0 + u - (x0 + v))
           + (y0 + slope * u - (y0 + slope * v)) * (y0 + slope * u - (y0 + slope * v)))
    with (Rsqr (v - u) * (1 + slope * slope)) by (unfold Rsqr; ring).
  rewrite sqrt_mult.
  - rewrite sqrt_Rsqr by lra. reflexivity.
  - apply Rle_0_sqr.
  - pose proof (square_nonneg slope). lra.
Qed.

Lemma line_neq (u v : R) : u <> v -> QPointF_neq (L u) (L v) = true.
Proof. intros N. apply QPointF_neq_x. unfold L, linePoint; simpl. lra. Qed.

(** The interval of a segment of width [h] whose neighbours, where it has
    any, are [h] away as well. *)
Lemma line_interval_inner (u h : R) :
  0 < h ->
  qwtBezierInterval (L (u - h)) (L u) (L (u + h)) (L (u + h + h)) =
    ret (mkInterval (3 * (py (L u) + (py (L (u + h)) - py (L (u - h))) * (1 / 6)))
                    (3 * (py (L (u + h)) + (py (L u) - py (L (u + h + h))) * (1 / 6)))).
Proof.
  intros Ph. pose proof line_stretch_pos as Pc.
  assert (0 < h * c) as Phc by (apply Rmult_lt_0_compat; assumption).
  apply interval_of_scales. rewrite scales_both.
  - rewrite !line_neq by lra. reflexivity.
  - rewrite !line_length by lra. lra.
  - rewrite !line_length by lra. lra.
Qed.

Lemma line_interval_first (u h : R) :
  0 < h ->
  qwtBezierInterval (L u) (L u) (L (u + h)) (L (u + h + h)) =
    ret (mkInterval (3 * (py (L u) + (py (L (u + h)) - py (L u)) * (1 / 3)))
                    (3 * (py (L (u + h)) + (py (L u) - py (L (u + h + h))) * (1 / 6)))).
Proof.
  intros Ph. pose proof line_stretch_pos as Pc.
  assert (0 < h * c) as Phc by (apply Rmult_lt_0_compat; assumption).
  apply interval_of_scales. rewrite scales_both.
  - rewrite QPointF_neq_same, line_neq by lra. reflexivity.
  - rewrite !line_length by lra. lra.
  - rewrite !line_length by lra. lra.
Qed.

Lemma line_interval_last (u h : R) :
  0 < h ->
  qwtBezierInterval (L (u - h)) (L u) (L (u + h)) (L (u + h)) =
    ret (mkInterval (3 * (py (L u) + (py (L (u + h)) - py (L (u - h))) * (1 / 6)))
                    (3 * (py (L (u + h)) + (py (L u) - py (L (u + h))) * (1 / 3)))).
Proof.
  intros Ph. pose proof line_stretch_pos as Pc.
  assert (0 < h * c) as Phc by (apply Rmult_lt_0_compat; assumption).
  apply interval_of_scales. rewrite scales_both.
  - rewrite QPointF_neq_same, line_neq by lra. reflexivity.
  - rewrite !line_length by lra. lra.
  - rewrite !line_length by lra. lra.
Qed.

(** With such an interval the cubic of the segment is the line itself. *)
Lemma line_value (u h x : R) (iv : QwtInterval) :
  0 < h ->
  minValue iv = 3 * py (L u) + slope * h ->
  maxValue iv = 3 * py (L (u + h)) - slope * h ->
  qwtBezierValue (L u) (L (u + h)) iv x = ret (y0 + slope * (x - x0)).
Proof.
  intros Ph Emin Emax.
  rewrite qwtBezierValue_defined by (unfold L, linePoint; simpl; lra).
  unfold ret; apply f_equal. cbv zeta. rewrite Emin, Emax.
  unfold L, linePoint; simpl. field. lra.
Qed.

End Line.

Lemma uniformLine_increasing (p : QPolygonF) (x0 y0 h slope : R) :
  0 < h -> uniformLine p x0 y0 h slope -> increasingX p.
Proof.
  intros Ph Line. apply increasingX_of_steps. intros k Lk Uk.
  rewrite (Line k), (Line (k + 1)%Z) by lia.
  unfold linePoint; simpl. rewrite plus_IZR. simpl. lra.
Qed.

(** The interval of every segment of a uniformly spaced line. *)
Lemma uniformLine_interval (p : QPolygonF) (x0 y0 h slope : R) (j : Z) :
  0 < h -> uniformLine p x0 y0 h slope ->
  (3 <= size p)%Z -> (0 <= j)%Z -> (j + 1 < size p)%Z ->
  exists iv,
    segmentInterval p j = ret iv /\
    minValue iv = 3 * py (linePoint x0 y0 slope (IZR j * h)) + slope * h /\
    maxValue iv = 3 * py (linePoint x0 y0 slope (IZR j * h + h)) - slope * h.
Proof.
  intros Ph Line Hs Lj Uj. unfold segmentInterval.
  destruct (Z.eqb_spec j 0) as [-> | Nj].
  - rewrite !at_in by lia. rewrite !bind_ret.
    rewrite (Line 0%Z), (Line 1%Z), (Line 2%Z) by lia.
    replace (IZR 1 * h) with (IZR 0 * h + h) by (simpl; ring).
    replace (IZR 2 * h) with (IZR 0 * h + h + h) by (simpl; ring).
    rewrite line_interval_first by exact Ph.
    eexists; split; [reflexivity |]. unfold linePoint; simpl. split; field.
  - rewrite !at_in by lia. rewrite !bind_ret.
    rewrite (Line (j - 1)%Z), (Line j), (Line (j + 1)%Z) by lia.
    replace (IZR (j - 1) * h) with (IZR j * h - h) by (rewrite minus_IZR; simpl; ring).
    replace (IZR (j + 1) * h) with (IZR j * h + h) by (rewrite plus_IZR; simpl; ring).
    destruct (Z_le_dec (j + 2) (size p - 1)) as [Inner | Last].
    + rewrite Z.min_r by lia. rewrite (Line (j + 2)%Z) by lia.
      replace (IZR (j + 2) * h) with (IZR j * h + h + h) by (rewrite plus_IZR; simpl; ring).
      rewrite line_interval_inner by exact Ph.
      eexists; split; [reflexivity |]. unfold linePoint; simpl. split; field.
    + rewrite Z.min_l by lia. replace (size p - 1)%Z with (j + 1)%Z by lia.
      rewrite (Line (j + 1)%Z) by lia.
      replace (IZR (j + 1) * h) with (IZR j * h + h) by (rewrite plus_IZR; simpl; ring).
      rewrite line_interval_last by exact Ph.
      eexists; split; [reflexivity |]. unfold linePoint; simpl. split; field.
Qed.

(** X18.  Straight-line exactness: when the input points (three or more)
    lie on one line at a constant spacing in x, every output point of
    [qwtFitBezier] lies on that line, for every sample count [m >= 2]. *)
Theorem qwtFitBezier_line_exact (p : QPolygonF) (m : Z) (x0 y0 h slope : R) :
  (3 <= size p)%Z -> 0 < h -> uniformLine p x0 y0 h slope -> (2 <= m)%Z ->
  exists out,
    qwtFitBezier p m = ret out /\ size out = m /\
    forall i, (0 <= i < m)%Z ->
      py (pointAt out i) = y0 + slope * (px (pointAt out i) - x0).
Proof.
  intros Hs Ph Line Hm.
  pose proof (uniformLine_increasing p x0 y0 h slope Ph Line) as Inc.
  destruct (qwtFitBezier_points p m Hs Inc Hm) as (out & E & Len & Pts).
  exists out. split; [exact E | split; [exact Len |]]. intros i Hrange.
  destruct (Pts i Hrange) as (j & iv & y & Lj & Uj & _ & _ & Eiv & Ey & Ept).
  cbv zeta in Ey, Ept. rewrite Ept. cbn [px py].
  destruct (uniformLine_interval p x0 y0 h slope j Ph Line Hs Lj Uj)
    as (iv' & Eiv' & Emin & Emax).
  assert (iv' = iv) as -> by (apply ret_inj; rewrite <- Eiv, <- Eiv'; reflexivity).
  rewrite (Line j), (Line (j + 1)%Z) in Ey by lia.
  replace (IZR (j + 1) * h) with (IZR j * h + h) in Ey by (rewrite plus_IZR; simpl; ring).
  rewrite (line_value x0 y0 slope (IZR j * h) h _ iv Ph Emin Emax) in Ey.
  apply ret_inj in Ey. symmetry. exact Ey.
Qed.

(** X18, witness: four points of the line [y = 1 + 2 * (x - 3)] at the
    spacing 1/2, seven samples. *)
Lemma qwtFitBezier_line_exact_witness :
  exists out,
    qwtFitBezier [mkPoint 3 1; mkPoint 3.5 2; mkPoint 4 3; mkPoint 4.5 4] 7 = ret out /\
    size out = 7%Z /\
    forall i, (0 <= i < 7)%Z ->
      py (pointAt out i) = 1 + 2 * (px (pointAt out i) - 3).
Proof.
  apply (qwtFitBezier_line_exact
           [mkPoint 3 1; mkPoint 3.5 2; mkPoint 4 3; mkPoint 4.5 4] 7 3 1 0.5 2).
  - unfold size; simpl; lia.
  - lra.
  - intros k Hk. unfold size in Hk; simpl in Hk.
    assert (k = 0 \/ k = 1 \/ k = 2 \/ k = 3)%Z as [-> | [-> | [-> | ->]]] by lia;
      unfold pointAt, linePoint; simpl; apply mkPoint_eq; lra.
  - lia.
Defined.

(** ** Moving the input *)

Lemma size_map (f : QPointF -> QPointF) (p : QPolygonF) : size (map f p) = size p.
Proof. unfold size; rewrite length_map; reflexivity. Qed.

Lemma pointAt_map (f : QPointF -> QPointF) (p : QPolygonF) (k : Z) :
  (0 <= k < size p)%Z -> pointAt (map f p) k = f (pointAt p k).
Proof.
  intros Hk. unfold pointAt.
  rewrite (nth_indep (map f p) (mkPoint 0 0) (f (mkPoint 0 0)))
    by (rewrite length_map; unfold size in Hk; lia).
  apply map_nth.
Qed.

(** Two polygons with the same points at the same indices are equal. *)
Lemma polygon_ext (l l' : QPolygonF) :
  size l = size l' ->
  (forall k, (0 <= k < size l)%Z -> pointAt l k = pointAt l' k) ->
  l = l'.
Proof.
  revert l'. induction l as [| a l IH]; intros [| b l'] Len Pts.
  - reflexivity.
  - unfold size in Len; simpl in Len; lia.
  - unfold size in Len; simpl in Len; lia.
  - rewrite !size_cons in Len. f_equal.
    + apply (Pts 0%Z). rewrite size_cons. unfold size. lia.
    + apply IH; [lia |]. intros k Hk.
      specialize (Pts (k + 1)%Z). rewrite size_cons in Pts.
      rewrite !pointAt_cons in Pts by lia.
      replace (k + 1 - 1)%Z with k in Pts by lia. apply Pts. lia.
Qed.

Section Shift.
Variables dx dy : R.

Let sh (q : QPointF) : QPointF := shiftPoint dx dy q.

Lemma qwtLineLength_shift (a b : QPointF) :
  qwtLineLength (sh a) (sh b) = qwtLineLength a b.
Proof. unfold qwtLineLength, sh, shiftPoint; simpl. f_equal. ring. Qed.

Lemma Req_bool_shift (u v d : R) : Req_bool (u + d) (v + d) = Req_bool u v.
Proof.
  unfold Req_bool.
  destruct (Req_dec_T (u + d) (v + d)), (Req_dec_T u v); try reflexivity; exfalso; lra.
Qed.

Lemma QPointF_neq_shift (a b : QPointF) :
  QPointF_neq (sh a) (sh b) = QPointF_neq a b.
Proof.
  unfold QPointF_neq, sh, shiftPoint; simpl. rewrite !Req_bool_shift. reflexivity.
Qed.

Lemma scales_shift (p0 p1 p2 p3 : QPointF) :
  qwtBezierScales (sh p0) (sh p1) (sh p2) (sh p3) = qwtBezierScales p0 p1 p2 p3.
Proof.
  unfold qwtBezierScales.
  rewrite !qwtLineLength_shift, !QPointF_neq_shift. reflexivity.
Qed.

Lemma interval_shift (p0 p1 p2 p3 : QPointF) (iv : QwtInterval) :
  qwtBezierInterval p0 p1 p2 p3 = ret iv ->
  exists iv',
    qwtBezierInterval (sh p0) (sh p1) (sh p2) (sh p3) = ret iv' /\
    minValue iv' = minValue iv + 3 * dy /\
    maxValue iv' = maxValue iv + 3 * dy.
Proof.
  unfold qwtBezierInterval. rewrite scales_shift.
  intros E. apply bind_inv in E. destruct E as (s & Es & E).
  rewrite Es, bind_ret. apply ret_inj in E. subst iv.
  eexists; split; [reflexivity |].
  unfold sh, shiftPoint; simpl. split; ring.
Qed.

Lemma value_shift (b c : QPointF) (iv iv' : QwtInterval) (x x' y : R) :
  px b <> px c ->
  minValue iv' = minValue iv + 3 * dy ->
  maxValue iv' = maxValue iv + 3 * dy ->
  x' = x + dx ->
  qwtBezierValue b c iv x = ret y ->
  qwtBezierValue (sh b) (sh c) iv' x' = ret (y + dy).
Proof.
  intros N Emin Emax Ex E.
  rewrite qwtBezierValue_defined in E by exact N.
  rewrite qwtBezierValue_defined by (unfold sh, shiftPoint; simpl; lra).
  apply ret_inj in E. subst y x'. unfold ret; apply f_equal. cbv zeta.
  rewrite Emin, Emax. unfold sh, shiftPoint; simpl. field. lra.
Qed.

Lemma segmentInterval_shift (p : QPolygonF) (j : Z) (iv : QwtInterval) :
  (3 <= size p)%Z -> (0 <= j)%Z -> (j + 1 < size p)%Z ->
  segmentInterval p j = ret iv ->
  exists iv',
    segmentInterval (map sh p) j = ret iv' /\
    minValue iv' = minValue iv + 3 * dy /\
    maxValue iv' = maxValue iv + 3 * dy.
Proof.
  intros Hs Lj Uj. unfold segmentInterval. rewrite size_map.
  destruct (Z.eqb_spec j 0) as [-> | Nj].
  - rewrite !at_in by (rewrite ?size_map; lia). rewrite !bind_ret.
    rewrite !pointAt_map by lia. apply interval_shift.
  - rewrite !at_in by (rewrite ?size_map; lia). rewrite !bind_ret.
    rewrite !pointAt_map by lia. apply interval_shift.
Qed.

End Shift.

Lemma increasingX_map_shift (dx dy : R) (p : QPolygonF) :
  increasingX p -> increasingX (map (shiftPoint dx dy) p).
Proof.
  intros Inc. apply increasingX_of_steps. intros k L U. rewrite size_map in U.
  rewrite !pointAt_map by lia. unfold shiftPoint; simpl.
  pose proof (increasingX_step p Inc k L U). lra.
Qed.

(** The segment of a sample is determined by the abscissae. *)
Lemma segment_unique (p : QPolygonF) (x : R) (j j' : Z) :
  increasingX p ->
  (0 <= j)%Z -> (j + 1 < size p)%Z -> (0 <= j')%Z -> (j' + 1 < size p)%Z ->
  ((0 < j)%Z -> px (pointAt p j) < x) -> x <= px (pointAt p (j + 1)) ->
  ((0 < j')%Z -> px (pointAt p j') < x) -> x <= px (pointAt p (j' + 1)) ->
  j = j'.
Proof.
  intros Inc L U L' U' Left Right Left' Right'.
  destruct (Z.lt_trichotomy j j') as [Lt | [Eq | Gt]]; [exfalso | exact Eq | exfalso].
  - specialize (Left' ltac:(lia)).
    destruct (Z.eq_dec (j + 1) j') as [E | N].
    + rewrite E in Right. lra.
    + pose proof (increasingX_lt p Inc (j + 1) j' ltac:(lia) ltac:(lia) ltac:(lia)). lra.
  - specialize (Left ltac:(lia)).
    destruct (Z.eq_dec (j' + 1) j) as [E | N].
    + rewrite E in Right'. lra.
    + pose proof (increasingX_lt p Inc (j' + 1) j ltac:(lia) ltac:(lia) ltac:(lia)). lra.
Qed.

(** X19.  Moving the input moves the output: for at least three points
    with strictly increasing abscissae and [m >= 2], fitting the polygon
    shifted by [(dx, dy)] gives the fitted polygon shifted by [(dx, dy)]. *)
Theorem qwtFitBezier_shift (p : QPolygonF) (m : Z) (dx dy : R) :
  (3 <= size p)%Z -> increasingX p -> (2 <= m)%Z ->
  exists out,
    qwtFitBezier p m = ret out /\
    qwtFitBezier (map (shiftPoint dx dy) p) m = ret (map (shiftPoint dx dy) out).
Proof.
  intros Hs Inc Hm.
  destruct (qwtFitBezier_points p m Hs Inc Hm) as (out & E & Len & Pts).
  destruct (qwtFitBezier_points (map (shiftPoint dx dy) p) m)
    as (out' & E' & Len' & Pts');
    [rewrite size_map; exact Hs | apply increasingX_map_shift; exact Inc | exact Hm |].
  exists out. split; [exact E |]. rewrite E'. f_equal.
  apply polygon_ext; [rewrite size_map; lia |].
  intros k Hk. rewrite Len' in Hk. rewrite pointAt_map by lia.
  destruct (Pts k Hk) as (j & iv & y & Lj & Uj & Hin & Hleft & Eiv & Ey & Ept).
  destruct (Pts' k Hk) as (j' & iv' & y' & Lj' & Uj' & Hin' & Hleft' & Eiv' & Ey' & Ept').
  cbv zeta in *. rewrite size_map in *.
  rewrite (pointAt_map _ p 0), (pointAt_map _ p (size p - 1)) in * by lia.
  rewrite (pointAt_map _ p j'), (pointAt_map _ p (j' + 1)) in * by lia.
  remember (px (pointAt p 0)
            + IZR k * ((px (pointAt p (size p - 1)) - px (pointAt p 0)) / IZR (m - 1)))
    as x eqn:Ex.
  remember (px (shiftPoint dx dy (pointAt p 0))
            + IZR k * ((px (shiftPoint dx dy (pointAt p (size p - 1)))
                        - px (shiftPoint dx dy (pointAt p 0))) / IZR (m - 1)))
    as x' eqn:Ex'.
  assert (x' = x + dx) as Exx.
  { subst x x'. unfold shiftPoint; simpl. field. apply not_0_IZR; lia. }
  unfold shiftPoint in Hin', Hleft'; simpl in Hin', Hleft'.
  assert (j = j') as <-.
  { apply (segment_unique p x j j' Inc); try assumption; try lra.
    intros Pj. specialize (Hleft' Pj). lra. }
  destruct (segmentInterval_shift dx dy p j iv Hs Lj Uj Eiv) as (iv'' & Eiv'' & Emin & Emax).
  assert (iv'' = iv') as -> by (apply ret_inj; rewrite <- Eiv', <- Eiv''; reflexivity).
  assert (px (pointAt p j) <> px (pointAt p (j + 1))) as Proper.
  { pose proof (increasingX_step p Inc j Lj Uj). lra. }
  pose proof (value_shift dx dy _ _ iv iv' x x' y Proper Emin Emax Exx Ey) as Ey''.
  assert (y' = y + dy) as -> by (apply ret_inj; rewrite <- Ey', <- Ey''; reflexivity).
  rewrite Ept, Ept'. unfold shiftPoint; simpl. apply mkPoint_eq; lra.
Qed.

(** X19, witness: the zigzag moved by (10, -3), nine samples. *)
Lemma qwtFitBezier_shift_witness :
  exists out,
    qwtFitBezier zigzag5 9 = ret out /\
    qwtFitBezier (map (shiftPoint 10 (-3)) zigzag5) 9 = ret (map (shiftPoint 10 (-3)) out).
Proof.
  apply (qwtFitBezier_shift zigzag5 9 10 (-3)).
  - unfold size; simpl; lia.
  - simpl; lra.
  - lia.
Defined.
